(** * WebCallingClient: connection lifecycle and session registry

    A shallow embedding of the [WebCallingClient] class (connect,
    disconnect, invite, reconnect, configureUA, configure) as an
    event-driven machine.  The class is asynchronous: every [await] is a
    suspension point, so the embedding keeps

    - the fields of the class,
    - the listeners the class attaches to the engine ([ua.once], [ua.on],
      [ua.transport.once]) and to its sessions,
    - a promise store, the continuations parked on pending promises and
      the micro-task queue of continuations whose promise has settled,
    - a trace of what the class does to the outside (engine commands,
      console output) interleaved with the inputs it received.

    The signalling engine, the timers of p-retry and the caller are the
    environment: they appear as inputs of the machine. *)

From stdpp Require Import base gmap strings list.
From Stdlib Require Import Lia.

(** ** Promises *)

(** Errors that travel through rejected promises. *)
Inductive err : Type :=
| EEngine                     (* the payload an engine event carries *)
| ETriedToConnect (n : nat)   (* Error(`Tried to connect ${n} times, ...`) *)
| ENotConnected               (* Error('not connected') *)
| ERegisterFirst              (* Error('Register first!') *)
| ETypeError.                 (* member access on undefined *)

(** A settled promise; the boolean is the value it was resolved with
    ([resolve()] and [resolve(true)] are both [Fulfilled true]). *)
Inductive outcome : Type :=
| Fulfilled (v : bool)
| Rejected (e : err).

(** Promise identities, by the place of the class that creates them. *)
Inductive pid : Type :=
| PTransport (n : nat)      (* transportConnectedPromise, configureUA *)
| PUnregistered (n : nat)   (* unregisteredPromise, disconnect *)
| PRegistered (n : nat)     (* registeredPromise, connect *)
| PConnect (n : nat)        (* the promise a connect() call returns *)
| PDisconnect (n : nat)     (* the promise a disconnect() call returns *)
| PInvite (n : nat)         (* the promise an invite() call returns *)
| PReconnect (n : nat)      (* the promise a reconnect() call returns *)
| PEngine (n : nat)         (* the promise ua.disconnect() returns *)
| PRetry (n : nat).         (* the promise pRetry returns *)

Definition pid_eqb (a b : pid) : bool :=
  match a, b with
  | PTransport n, PTransport m => Nat.eqb n m
  | PUnregistered n, PUnregistered m => Nat.eqb n m
  | PRegistered n, PRegistered m => Nat.eqb n m
  | PConnect n, PConnect m => Nat.eqb n m
  | PDisconnect n, PDisconnect m => Nat.eqb n m
  | PInvite n, PInvite m => Nat.eqb n m
  | PReconnect n, PReconnect m => Nat.eqb n m
  | PEngine n, PEngine m => Nat.eqb n m
  | PRetry n, PRetry m => Nat.eqb n m
  | _, _ => false
  end.

(** ** Suspended code

    One constructor per [await] of the class (and of p-retry), holding
    what the code after the [await] still needs and the promise that is
    awaited. *)
Inductive cont : Type :=
| KConnectUnregistered (r q : nat)
    (* connect [r], line 82: await this.unregisteredPromise *)
| KConnectTransport (r : nat) (t : option nat)
    (* connect [r], line 100: await this.transportConnectedPromise *)
| KConnectReturn (r p : nat)
    (* connect [r], lines 86, 107: return this.registeredPromise *)
| KDisconnectReturn (r d : nat)
    (* disconnect [r], line 113: return this.disconnectPromise *)
| KDisconnectUnregistered (r q : nat)
    (* disconnect [r], line 136: await this.unregisteredPromise *)
| KDisconnectUa (r d : nat)
    (* disconnect [r], line 141: await this.ua.disconnect() *)
| KInviteRegistered (r p : nat) (phone id : string)
    (* invite [r], line 159: await this.registeredPromise *)
| KHandlerDisconnect (t d : nat)
    (* 'disconnected' handler, line 212: await this.disconnect() *)
| KHandlerReconnect (t c : nat)
    (* 'disconnected' handler, line 223: await this.reconnect() *)
| KReconnectRetry (r q : nat)
    (* reconnect [r], line 178: await pRetry(...) *)
| KRetryAttempt (q k n c : nat)
    (* p-retry [q], attempt [k] of [n] retries: await input(k) *)
| KRetryFailed (q k n : nat) (e : err).
    (* p-retry [q]: await options.onFailedAttempt(error) *)

(** The promise a continuation waits for; [None]: the awaited value is
    not a promise. *)
Definition awaited (k : cont) : option pid :=
  match k with
  | KConnectUnregistered _ q => Some (PUnregistered q)
  | KConnectTransport _ (Some t) => Some (PTransport t)
  | KConnectTransport _ None => None
  | KConnectReturn _ p => Some (PRegistered p)
  | KDisconnectReturn _ d => Some (PDisconnect d)
  | KDisconnectUnregistered _ q => Some (PUnregistered q)
  | KDisconnectUa _ d => Some (PEngine d)
  | KInviteRegistered _ p _ _ => Some (PRegistered p)
  | KHandlerDisconnect _ d => Some (PDisconnect d)
  | KHandlerReconnect _ c => Some (PReconnect c)
  | KReconnectRetry _ q => Some (PRetry q)
  | KRetryAttempt _ _ _ c => Some (PConnect c)
  | KRetryFailed _ _ _ _ => None
  end.

Definition waits_on (p : pid) (k : cont) : bool :=
  match awaited k with
  | Some p' => pid_eqb p p'
  | None => false
  end.

(** ** Listeners *)

Inductive handler : Type :=
| HRegistered (p : nat)           (* ua.once('registered'), line 90 *)
| HRegistrationFailed (p : nat)   (* ua.once('registrationFailed'), line 94 *)
| HUnregistered (q : nat)         (* ua.once('unregistered'), line 124 *)
| HTransportCreated (t : nat)     (* ua.once('transportCreated'), line 202 *)
| HConnected (t : nat)            (* ua.transport.once('connected'), 204 *)
| HDisconnected (t : nat)         (* ua.transport.once('disconnected'), 209 *)
| HInvite.                        (* ua.on('invite'), line 236 *)

Inductive event : Type :=
| EvRegistered | EvRegistrationFailed | EvUnregistered
| EvTransportCreated | EvInvite
| EvConnected | EvDisconnected.

Definition event_of (h : handler) : event :=
  match h with
  | HRegistered _ => EvRegistered
  | HRegistrationFailed _ => EvRegistrationFailed
  | HUnregistered _ => EvUnregistered
  | HTransportCreated _ => EvTransportCreated
  | HConnected _ => EvConnected
  | HDisconnected _ => EvDisconnected
  | HInvite => EvInvite
  end.

(** Every listener of the class is attached with [once], except the
    'invite' listener, attached with [on]. *)
Definition is_once (h : handler) : bool :=
  match h with HInvite => false | _ => true end.

Definition event_eqb (a b : event) : bool :=
  match a, b with
  | EvRegistered, EvRegistered | EvRegistrationFailed, EvRegistrationFailed
  | EvUnregistered, EvUnregistered | EvTransportCreated, EvTransportCreated
  | EvInvite, EvInvite | EvConnected, EvConnected
  | EvDisconnected, EvDisconnected => true
  | _, _ => false
  end.

(** ** Sessions *)

(** A [WebCallingSession] object: [sobj] is the identity of the object,
    [sid] the [id] field the registry is keyed by. *)
Record session : Type := Session {
  sobj : nat;
  sid : string;
  inbound : bool
}.

(** ** Inputs and trace *)

Inductive input : Type :=
| CallConnect
| CallDisconnect
| CallInvite (phone id : string)  (* [id]: the id the new session will have *)
| Engine (e : event) (id : string) (* the engine emits [e]; [id] is used by
                                      'invite' only: the id of the session *)
| UaDisconnected                  (* the promises of ua.disconnect() resolve *)
| Terminated (o : nat)            (* session object [o] emits 'terminated' *)
| Timer.                          (* the timer p-retry armed fires *)

Inductive msg : Type :=
| MConfiguringUa | MCannotConnectWhileUnregistering
| MTryingToUnregister | MUnregistered | MDisconnected
| MAttemptFailed (attempt retriesLeft : nat) | MNotAttempting
| MTransportCreated | MConnected | MUnexpectedDisconnect.

Inductive action : Type :=
| ConsoleLog (m : msg)
| ConsoleError (m : msg)
| NewUA (u : nat)
| UaStart
| UaRegister
| UaUnregister (call : nat)     (* issued by the disconnect() call [call] *)
| UaDisconnect (call : nat)
| UaInvite (phone : string)
| EmitInvite (s : session)
| SetTimeout
| Unhandled (e : err).

Inductive entry : Type :=
| Got (i : input)
| Do (a : action).

(** ** State *)

Record state : Type := State {
  (* the fields of the class *)
  ua : option nat;
  transportConnectedPromise : option nat;
  unregisteredPromise : option nat;
  registeredPromise : option nat;
  disconnectPromise : option nat;
  registered : bool;
  isReconnecting : bool;
  retries : nat;
  sessions : gmap string session;
  (* listeners of the engine instance [ua] and of its transport *)
  listeners : list handler;
  (* sessions whose once('terminated') listener is armed *)
  armed : list session;
  (* promises *)
  settled : list (pid * outcome);
  waiting : list cont;
  queue : list (cont * outcome);
  timers : list (nat * nat * nat);
  engine_pending : list nat;
  next : nat;
  trace : list entry
}.

Definition set_ua v (s : state) : state :=
  State v s.(transportConnectedPromise) s.(unregisteredPromise)
    s.(registeredPromise) s.(disconnectPromise) s.(registered)
    s.(isReconnecting) s.(retries) s.(sessions) s.(listeners) s.(armed)
    s.(settled) s.(waiting) s.(queue) s.(timers) s.(engine_pending)
    s.(next) s.(trace).
Definition set_transportConnectedPromise v (s : state) : state :=
  State s.(ua) v s.(unregisteredPromise)
    s.(registeredPromise) s.(disconnectPromise) s.(registered)
    s.(isReconnecting) s.(retries) s.(sessions) s.(listeners) s.(armed)
    s.(settled) s.(waiting) s.(queue) s.(timers) s.(engine_pending)
    s.(next) s.(trace).
Definition set_unregisteredPromise v (s : state) : state :=
  State s.(ua) s.(transportConnectedPromise) v
    s.(registeredPromise) s.(disconnectPromise) s.(registered)
    s.(isReconnecting) s.(retries) s.(sessions) s.(listeners) s.(armed)
    s.(settled) s.(waiting) s.(queue) s.(timers) s.(engine_pending)
    s.(next) s.(trace).
Definition set_registeredPromise v (s : state) : state :=
  State s.(ua) s.(transportConnectedPromise) s.(unregisteredPromise)
    v s.(disconnectPromise) s.(registered)
    s.(isReconnecting) s.(retries) s.(sessions) s.(listeners) s.(armed)
    s.(settled) s.(waiting) s.(queue) s.(timers) s.(engine_pending)
    s.(next) s.(trace).
Definition set_registered v (s : state) : state :=
  State s.(ua) s.(transportConnectedPromise) s.(unregisteredPromise)
    s.(registeredPromise) s.(disconnectPromise) v
    s.(isReconnecting) s.(retries) s.(sessions) s.(listeners) s.(armed)
    s.(settled) s.(waiting) s.(queue) s.(timers) s.(engine_pending)
    s.(next) s.(trace).
Definition set_isReconnecting v (s : state) : state :=
  State s.(ua) s.(transportConnectedPromise) s.(unregisteredPromise)
    s.(registeredPromise) s.(disconnectPromise) s.(registered)
    v s.(retries) s.(sessions) s.(listeners) s.(armed)
    s.(settled) s.(waiting) s.(queue) s.(timers) s.(engine_pending)
    s.(next) s.(trace).
Definition set_sessions v (s : state) : state :=
  State s.(ua) s.(transportConnectedPromise) s.(unregisteredPromise)
    s.(registeredPromise) s.(disconnectPromise) s.(registered)
    s.(isReconnecting) s.(retries) v s.(listeners) s.(armed)
    s.(settled) s.(waiting) s.(queue) s.(timers) s.(engine_pending)
    s.(next) s.(trace).
Definition set_listeners v (s : state) : state :=
  State s.(ua) s.(transportConnectedPromise) s.(unregisteredPromise)
    s.(registeredPromise) s.(disconnectPromise) s.(registered)
    s.(isReconnecting) s.(retries) s.(sessions) v s.(armed)
    s.(settled) s.(waiting) s.(queue) s.(timers) s.(engine_pending)
    s.(next) s.(trace).
Definition set_armed v (s : state) : state :=
  State s.(ua) s.(transportConnectedPromise) s.(unregisteredPromise)
    s.(registeredPromise) s.(disconnectPromise) s.(registered)
    s.(isReconnecting) s.(retries) s.(sessions) s.(listeners) v
    s.(settled) s.(waiting) s.(queue) s.(timers) s.(engine_pending)
    s.(next) s.(trace).
Definition set_settled v (s : state) : state :=
  State s.(ua) s.(transportConnectedPromise) s.(unregisteredPromise)
    s.(registeredPromise) s.(disconnectPromise) s.(registered)
    s.(isReconnecting) s.(retries) s.(sessions) s.(listeners) s.(armed)
    v s.(waiting) s.(queue) s.(timers) s.(engine_pending)
    s.(next) s.(trace).
Definition set_waiting v (s : state) : state :=
  State s.(ua) s.(transportConnectedPromise) s.(unregisteredPromise)
    s.(registeredPromise) s.(disconnectPromise) s.(registered)
    s.(isReconnecting) s.(retries) s.(sessions) s.(listeners) s.(armed)
    s.(settled) v s.(queue) s.(timers) s.(engine_pending)
    s.(next) s.(trace).
Definition set_queue v (s : state) : state :=
  State s.(ua) s.(transportConnectedPromise) s.(unregisteredPromise)
    s.(registeredPromise) s.(disconnectPromise) s.(registered)
    s.(isReconnecting) s.(retries) s.(sessions) s.(listeners) s.(armed)
    s.(settled) s.(waiting) v s.(timers) s.(engine_pending)
    s.(next) s.(trace).
Definition set_timers v (s : state) : state :=
  State s.(ua) s.(transportConnectedPromise) s.(unregisteredPromise)
    s.(registeredPromise) s.(disconnectPromise) s.(registered)
    s.(isReconnecting) s.(retries) s.(sessions) s.(listeners) s.(armed)
    s.(settled) s.(waiting) s.(queue) v s.(engine_pending)
    s.(next) s.(trace).
Definition set_engine_pending v (s : state) : state :=
  State s.(ua) s.(transportConnectedPromise) s.(unregisteredPromise)
    s.(registeredPromise) s.(disconnectPromise) s.(registered)
    s.(isReconnecting) s.(retries) s.(sessions) s.(listeners) s.(armed)
    s.(settled) s.(waiting) s.(queue) s.(timers) v
    s.(next) s.(trace).
Definition set_next v (s : state) : state :=
  State s.(ua) s.(transportConnectedPromise) s.(unregisteredPromise)
    s.(registeredPromise) s.(disconnectPromise) s.(registered)
    s.(isReconnecting) s.(retries) s.(sessions) s.(listeners) s.(armed)
    s.(settled) s.(waiting) s.(queue) s.(timers) s.(engine_pending)
    v s.(trace).
Definition set_trace v (s : state) : state :=
  State s.(ua) s.(transportConnectedPromise) s.(unregisteredPromise)
    s.(registeredPromise) s.(disconnectPromise) s.(registered)
    s.(isReconnecting) s.(retries) s.(sessions) s.(listeners) s.(armed)
    s.(settled) s.(waiting) s.(queue) s.(timers) s.(engine_pending)
    s.(next) v.

(** The fields as the class declares them (lines 44-53); [n] is the
    value of [retries]: the class fixes it to 10. *)
Definition fresh_client (n : nat) : state :=
  State None None None None None false false n ∅ [] [] [] [] [] [] [] 0 [].

Definition init : state := fresh_client 10.

(** ** Primitives of the runtime *)

Definition emit (a : action) (s : state) : state :=
  set_trace (s.(trace) ++ [Do a]) s.

(** A fresh identity (for a promise, an engine instance, a session). *)
Definition fresh (s : state) : nat * state :=
  (s.(next), set_next (S s.(next)) s).

Fixpoint assoc (p : pid) (l : list (pid * outcome)) : option outcome :=
  match l with
  | [] => None
  | (p', o) :: l' => if pid_eqb p p' then Some o else assoc p l'
  end.

(** [None]: the promise is pending. *)
Definition pstate (s : state) (p : pid) : option outcome :=
  assoc p s.(settled).

Definition enqueue (k : cont) (o : outcome) (s : state) : state :=
  set_queue (s.(queue) ++ [(k, o)]) s.

(** resolve / reject: a promise settles once; its reactions are queued
    in the order they were attached. *)
Definition settle (p : pid) (o : outcome) (s : state) : state :=
  match pstate s p with
  | Some _ => s
  | None =>
      let woken := List.filter (waits_on p) s.(waiting) in
      let rest := List.filter (fun k => negb (waits_on p k)) s.(waiting) in
      set_settled ((p, o) :: s.(settled))
        (set_waiting rest
          (set_queue (s.(queue) ++ map (fun k => (k, o)) woken) s))
  end.

(** [await]: the continuation runs in a later micro-task, queued at once
    when what it awaits is settled already or is not a promise. *)
Definition await (k : cont) (s : state) : state :=
  match awaited k with
  | None => enqueue k (Fulfilled true) s
  | Some p =>
      match pstate s p with
      | Some o => enqueue k o s
      | None => set_waiting (s.(waiting) ++ [k]) s
      end
  end.

Definition add_listener (h : handler) (s : state) : state :=
  set_listeners (s.(listeners) ++ [h]) s.

(** ** The methods of the class

    A method invocation gets a fresh result promise; the code
    up to its first [await] runs at once, the rest is parked. *)

(** [configureUA] (lines 198-252): a new engine instance, a new
    transport promise, and the two listeners on the instance. *)
Definition configureUA (s : state) : state :=
  let (u, s) := fresh s in
  let s := emit (NewUA u) (set_ua (Some u) s) in
  let (t, s) := fresh s in
  let s := set_transportConnectedPromise (Some t) s in
  add_listener HInvite (add_listener (HTransportCreated t) s).

(** [connect] from line 85 on. *)
Definition connect_tail (r : nat) (s : state) : state :=
  match s.(registeredPromise) with
  | Some p => await (KConnectReturn r p) s
  | None =>
      let (p, s) := fresh s in
      let s := set_registeredPromise (Some p) s in
      match s.(ua) with
      | None =>
          (* this.ua.once throws in the executor, this.ua.start() throws *)
          settle (PConnect r) (Rejected ETypeError)
            (settle (PRegistered p) (Rejected ETypeError) s)
      | Some _ =>
          let s := add_listener (HRegistrationFailed p)
                     (add_listener (HRegistered p) s) in
          let s := emit UaStart s in
          await (KConnectTransport r s.(transportConnectedPromise)) s
      end
  end.

(** [connect] (lines 71-108). *)
Definition connect_call (s : state) : nat * state :=
  let (r, s) := fresh s in
  let s := match s.(ua) with
           | None => configureUA (emit (ConsoleLog MConfiguringUa) s)
           | Some _ => s
           end in
  match s.(unregisteredPromise) with
  | Some q =>
      (r, await (KConnectUnregistered r q)
            (emit (ConsoleError MCannotConnectWhileUnregistering) s))
  | None => (r, connect_tail r s)
  end.

(** [connect] after [await this.transportConnectedPromise]. *)
Definition connect_transport (r : nat) (o : outcome) (s : state) : state :=
  match o with
  | Rejected _ =>
      settle (PConnect r) (Rejected (ETriedToConnect (s.(retries) + 1))) s
  | Fulfilled _ =>
      match s.(ua) with
      | None => settle (PConnect r) (Rejected ETypeError) s
      | Some _ =>
          let s := emit UaRegister s in
          match s.(registeredPromise) with
          | Some p => await (KConnectReturn r p) s
          | None => settle (PConnect r) (Fulfilled true) s
          end
      end
  end.

(** [disconnect] from line 139 on. *)
Definition disconnect_tail (r : nat) (s : state) : state :=
  let s := emit (ConsoleLog MUnregistered) s in
  match s.(ua) with
  | None => settle (PDisconnect r) (Rejected ETypeError) s
  | Some _ =>
      let (d, s) := fresh s in
      let s := set_engine_pending (s.(engine_pending) ++ [d]) s in
      await (KDisconnectUa r d) (emit (UaDisconnect r) s)
  end.

(** [disconnect] (lines 111-150). *)
Definition disconnect_call (s : state) : nat * state :=
  let (r, s) := fresh s in
  match s.(disconnectPromise) with
  | Some d => (r, await (KDisconnectReturn r d) s)
  | None =>
      match s.(ua) with
      | None => (r, settle (PDisconnect r) (Rejected ENotConnected) s)
      | Some _ =>
          let s := set_registeredPromise None s in
          if s.(registered) then
            let (q, s) := fresh s in
            let s := set_unregisteredPromise (Some q) s in
            let s := add_listener (HUnregistered q) s in
            let s := emit (ConsoleLog MTryingToUnregister) s in
            let s := emit (UaUnregister r) s in
            (r, await (KDisconnectUnregistered r q) s)
          else (r, disconnect_tail r s)
      end
  end.

(** [disconnect] after [await this.ua.disconnect()] (lines 143-149). *)
Definition disconnect_finish (r : nat) (s : state) : state :=
  let s := emit (ConsoleLog MDisconnected) s in
  match s.(ua) with
  | None => settle (PDisconnect r) (Rejected ETypeError) s
  | Some _ =>
      let s := set_listeners [] s in
      let s := set_unregisteredPromise None (set_ua None s) in
      settle (PDisconnect r) (Fulfilled true) s
  end.

(** [invite] (lines 154-172): the synchronous part. *)
Definition invite_call (phone id : string) (s : state) : nat * state :=
  let (r, s) := fresh s in
  match s.(registeredPromise) with
  | None => (r, settle (PInvite r) (Rejected ERegisterFirst) s)
  | Some p => (r, await (KInviteRegistered r p phone id) s)
  end.

(** [invite] after [await this.registeredPromise] (lines 161-171). *)
Definition invite_finish (r : nat) (phone id : string) (s : state) : state :=
  match s.(ua) with
  | None => settle (PInvite r) (Rejected ETypeError) s
  | Some _ =>
      let s := emit (UaInvite phone) s in
      let (o, s) := fresh s in
      let x := Session o id false in
      let s := set_sessions (<[id := x]> s.(sessions)) s in
      let s := set_armed (s.(armed) ++ [x]) s in
      settle (PInvite r) (Fulfilled true) s
  end.

(** ** p-retry and [reconnect]

    [pRetry(input, {retries: n, onFailedAttempt, ...})] of the p-retry
    package, over node-retry's operation: attempt 1 runs at once; a
    failed attempt [k] is reported to [onFailedAttempt] with
    [attemptNumber = k] and [retriesLeft = n - (k - 1)], and is followed
    by a timer for attempt [k + 1] as long as one of the [n] timeouts is
    left.  A TypeError stops the operation, a rejection with something
    that is not an Error is turned into a TypeError. *)

Inductive err_class : Type := Retryable | Programmer | NonError.

Definition classify (e : err) : err_class :=
  match e with
  | EEngine => NonError
  | ETypeError => Programmer
  | _ => Retryable
  end.

(** attempt [k]: [input(k)] is [this.connect()]. *)
Definition retry_attempt (q k n : nat) (s : state) : state :=
  let (c, s) := connect_call s in
  await (KRetryAttempt q k n c) s.

(** after [await input(k)]. *)
Definition retry_settled (q k n : nat) (o : outcome) (s : state) : state :=
  match o with
  | Fulfilled v => settle (PRetry q) (Fulfilled v) s
  | Rejected e =>
      match classify e with
      | NonError => settle (PRetry q) (Rejected ETypeError) s
      | Programmer => settle (PRetry q) (Rejected e) s
      | Retryable =>
          (* onFailedAttempt, lines 181-187, then await of its result *)
          let s := emit (ConsoleLog (MAttemptFailed k (n - (k - 1)))) s in
          await (KRetryFailed q k n e) s
      end
  end.

(** [operation.retry(error)]. *)
Definition retry_failed (q k n : nat) (e : err) (s : state) : state :=
  if k <=? n then
    emit SetTimeout (set_timers (s.(timers) ++ [(q, S k, n)]) s)
  else settle (PRetry q) (Rejected e) s.

(** [reconnect] (lines 174-196): up to the [await]. *)
Definition reconnect_call (s : state) : nat * state :=
  let (r, s) := fresh s in
  let s := set_isReconnecting true s in
  let (q, s) := fresh s in
  let s := retry_attempt q 1 s.(retries) s in
  (r, await (KReconnectRetry r q) s).

(** [reconnect] after [await pRetry(...)]. *)
Definition reconnect_finish (r : nat) (o : outcome) (s : state) : state :=
  match o with
  | Fulfilled _ => settle (PReconnect r) (Fulfilled true) s
  | Rejected _ =>
      settle (PReconnect r) (Fulfilled false)
        (emit (ConsoleLog MNotAttempting) s)
  end.

(** ** The 'disconnected' handler of the transport (lines 209-232) *)

Definition handler_start (t : nat) (s : state) : state :=
  let s := emit (ConsoleLog MUnexpectedDisconnect) s in
  let (d, s) := disconnect_call s in
  await (KHandlerDisconnect t d) s.

(** after [await this.disconnect()]. *)
Definition handler_disconnected (t : nat) (o : outcome) (s : state) : state :=
  match o with
  | Rejected e => emit (Unhandled e) s
  | Fulfilled _ =>
      if s.(isReconnecting) then settle (PTransport t) (Rejected EEngine) s
      else
        let (c, s) := reconnect_call s in
        await (KHandlerReconnect t c) s
  end.

(** after [await this.reconnect()]. *)
Definition handler_reconnected (t : nat) (o : outcome) (s : state) : state :=
  match o with
  | Rejected e => emit (Unhandled e) s
  | Fulfilled connected =>
      let s := set_isReconnecting false s in
      settle (PTransport t)
        (if connected then Fulfilled true else Rejected EEngine) s
  end.

(** ** Running a continuation *)

(** An [await] of a rejected promise throws; none of the methods
    catches it (the [try] of [connect] apart), so the method's own
    promise is rejected. *)
Definition rethrow (r : pid) (o : outcome) (k : state -> state)
    (s : state) : state :=
  match o with
  | Rejected e => settle r (Rejected e) s
  | Fulfilled _ => k s
  end.

Definition run_cont (k : cont) (o : outcome) (s : state) : state :=
  match k with
  | KConnectUnregistered r _ => rethrow (PConnect r) o (connect_tail r) s
  | KConnectTransport r _ => connect_transport r o s
  | KConnectReturn r _ => settle (PConnect r) o s
  | KDisconnectReturn r _ => settle (PDisconnect r) o s
  | KDisconnectUnregistered r _ =>
      rethrow (PDisconnect r) o (disconnect_tail r) s
  | KDisconnectUa r _ => rethrow (PDisconnect r) o (disconnect_finish r) s
  | KInviteRegistered r _ phone id =>
      rethrow (PInvite r) o (invite_finish r phone id) s
  | KHandlerDisconnect t _ => handler_disconnected t o s
  | KHandlerReconnect t _ => handler_reconnected t o s
  | KReconnectRetry r _ => reconnect_finish r o s
  | KRetryAttempt q k n _ => retry_settled q k n o s
  | KRetryFailed q k n e => retry_failed q k n e s
  end.

(** The micro-task queue is drained after every input. *)
Fixpoint drain (fuel : nat) (s : state) : state :=
  match fuel with
  | 0 => s
  | S fuel =>
      match s.(queue) with
      | [] => s
      | (k, o) :: rest => drain fuel (run_cont k o (set_queue rest s))
      end
  end.

(** ** Engine events *)

Definition handler_eqb (a b : handler) : bool :=
  match a, b with
  | HRegistered n, HRegistered m | HRegistrationFailed n, HRegistrationFailed m
  | HUnregistered n, HUnregistered m | HTransportCreated n, HTransportCreated m
  | HConnected n, HConnected m | HDisconnected n, HDisconnected m =>
      Nat.eqb n m
  | HInvite, HInvite => true
  | _, _ => false
  end.

Fixpoint remove_first (h : handler) (l : list handler) : list handler :=
  match l with
  | [] => []
  | x :: l' => if handler_eqb h x then l' else x :: remove_first h l'
  end.

(** What a listener does; the boolean is false when it throws.  The
    transport object exists as soon as the instance does. *)
Definition fire (h : handler) (id : string) (s : state) : state * bool :=
  match h with
  | HRegistered p =>
      (settle (PRegistered p) (Fulfilled true) (set_registered true s), true)
  | HRegistrationFailed p => (settle (PRegistered p) (Rejected EEngine) s, true)
  | HUnregistered q =>
      (settle (PUnregistered q) (Fulfilled true) (set_registered false s), true)
  | HTransportCreated t =>
      let s := emit (ConsoleLog MTransportCreated) s in
      match s.(ua) with
      | None => (s, false)
      | Some _ => (add_listener (HDisconnected t) (add_listener (HConnected t) s),
                   true)
      end
  | HConnected t =>
      (settle (PTransport t) (Fulfilled true) (emit (ConsoleLog MConnected) s),
       true)
  | HDisconnected t => (handler_start t s, true)
  | HInvite =>
      let (o, s) := fresh s in
      let x := Session o id true in
      let s := set_sessions (<[id := x]> s.(sessions)) s in
      let s := emit (EmitInvite x) s in
      (set_armed (s.(armed) ++ [x]) s, true)
  end.

(** [emitter.emit(e)]: the listeners of [e] at the time of the call, in
    the order they were attached; a [once] listener is detached right
    before it runs; an exception ends the emission. *)
Fixpoint emit_event (e : event) (snapshot : list handler) (id : string)
    (s : state) : state :=
  match snapshot with
  | [] => s
  | h :: rest =>
      if event_eqb (event_of h) e then
        let s := if is_once h
                 then set_listeners (remove_first h s.(listeners)) s else s in
        match fire h id s with
        | (s, true) => emit_event e rest id s
        | (s, false) => emit (Unhandled ETypeError) s
        end
      else emit_event e rest id s
  end.

(** A session emits 'terminated': its armed listener, line 169 or 250,
    is detached and deletes the entry of the session's id. *)
Definition terminated (o : nat) (s : state) : state :=
  let hit := List.filter (fun x => Nat.eqb x.(sobj) o) s.(armed) in
  let s := set_armed (List.filter (fun x => negb (Nat.eqb x.(sobj) o)) s.(armed)) s in
  foldl (fun s x => set_sessions (delete x.(sid) s.(sessions)) s) s hit.

(** ** The machine *)

Definition dispatch (i : input) (s : state) : state :=
  match i with
  | CallConnect => (connect_call s).2
  | CallDisconnect => (disconnect_call s).2
  | CallInvite phone id => (invite_call phone id s).2
  | Engine e id => emit_event e s.(listeners) id s
  | UaDisconnected =>
      foldl (fun s d => settle (PEngine d) (Fulfilled true) s)
        (set_engine_pending [] s) s.(engine_pending)
  | Terminated o => terminated o s
  | Timer =>
      match s.(timers) with
      | [] => s
      | (q, k, n) :: rest => retry_attempt q k n (set_timers rest s)
      end
  end.

Definition step (fuel : nat) (s : state) (i : input) : state :=
  drain fuel (dispatch i (set_trace (s.(trace) ++ [Got i]) s)).

Definition run (fuel : nat) (s : state) (l : list input) : state :=
  foldl (step fuel) s l.

(** Nothing is left to run. *)
Definition quiescent (s : state) : Prop := s.(queue) = [].

(** What the class did to the outside. *)
Fixpoint actions (t : list entry) : list action :=
  match t with
  | [] => []
  | Do a :: t => a :: actions t
  | Got _ :: t => actions t
  end.

(** ** [configure] (lines 272-295)

    The options reach [configure] as a JavaScript value; the interface
    [IWebCallingClientOptions] is a compile-time annotation only. *)

#[local] Unset Elimination Schemes.
Inductive jsval : Type :=
| JUndefined
| JNull
| JBool (b : bool)
| JNumber (n : nat)
| JString (s : string)
| JArray (l : list jsval)
| JObject (l : list (string * jsval)).
#[local] Set Elimination Schemes.

Fixpoint own (k : string) (l : list (string * jsval)) : jsval :=
  match l with
  | [] => JUndefined
  | (k', v) :: l' => if String.eqb k k' then v else own k l'
  end.

(** [v.k] for the members [configure] reads; [None]: a TypeError. *)
Definition member (v : jsval) (k : string) : option jsval :=
  match v with
  | JUndefined | JNull => None
  | JObject l => Some (own k l)
  | _ => Some JUndefined
  end.

Record ua_options : Type := UaOptions {
  (* defaultOptions, lines 254-270 *)
  autostart : bool;
  autostop : bool;
  log_builtinEnabled : bool;
  log_level : string;
  noAnswerTimeout : nat;
  register : bool;
  registerOptions_expires : nat;
  userAgentString : string;
  (* lines 277-293 *)
  authorizationUser : jsval;
  media : jsval;
  password : jsval;
  iceServers : list jsval;
  maxReconnectionAttempts : nat;
  traceSip : bool;
  wsServers : jsval;
  uri : jsval
}.

(** [transport.iceServers.map(s => ({ urls: s }))]. *)
Definition ice_urls (v : jsval) : option (list jsval) :=
  match v with
  | JArray l => Some (map (fun s => JObject [("urls", s)]) l)
  | _ => None
  end.

Definition configure (options : jsval) : err + ua_options :=
  match member options "account", member options "transport",
        member options "media" with
  | Some account, Some transport, Some media =>
      match member account "user", member account "password",
            member transport "iceServers" ≫= ice_urls,
            member transport "wsServers", member account "uri" with
      | Some user, Some password, Some ice, Some ws, Some uri =>
          inr (UaOptions false false true "warn" 60 false 3600
                 "vialer-calling-lib" user media password ice 0 true ws uri)
      | _, _, _, _, _ => inl ETypeError
      end
  | _, _, _ => inl ETypeError
  end.

(** The constructor (lines 55-59): the field initialisers, then
    [configure]. *)
Definition construct (options : jsval) : err + (ua_options * state) :=
  match configure options with
  | inl e => inl e
  | inr o => inr (o, init)
  end.

(** ** Scenarios *)

Definition ev (e : event) : input := Engine e EmptyString.

(** connect() and the engine events of a successful registration. *)
Definition bring_up : list input :=
  [CallConnect; ev EvTransportCreated; ev EvConnected; ev EvRegistered].

(** The transport is lost while the client is registered; the internal
    disconnect() completes. *)
Definition transport_loss : list input :=
  [ev EvDisconnected; ev EvUnregistered; UaDisconnected].

(** A reconnect attempt fails: the transport of the new engine instance
    is created and lost, the internal disconnect() completes. *)
Definition failed_attempt : list input :=
  [ev EvTransportCreated; ev EvDisconnected; UaDisconnected].


(** Observations on a trace. *)
Definition is_start (a : action) : bool :=
  match a with UaStart => true | _ => false end.

Definition starts (t : list entry) : nat :=
  length (List.filter is_start (actions t)).

Fixpoint reports (l : list action) : list (nat * nat) :=
  match l with
  | [] => []
  | ConsoleLog (MAttemptFailed k n) :: l => (k, n) :: reports l
  | _ :: l => reports l
  end.

Definition is_command (a : action) : bool :=
  match a with
  | UaStart | UaRegister | UaUnregister _ | UaDisconnect _ | UaInvite _ => true
  | _ => false
  end.

Definition commands (t : list entry) : list action :=
  List.filter is_command (actions t).

(** ** Predicates on options *)

Definition recognized (k : string) : bool :=
  String.eqb "account" k || String.eqb "transport" k || String.eqb "media" k.

(** The options without the members [configure] does not name. *)
Definition recognized_only (options : jsval) : jsval :=
  match options with
  | JObject l => JObject (List.filter (fun x => recognized x.1) l)
  | v => v
  end.

Definition nullish (v : jsval) : bool :=
  match v with JUndefined | JNull => true | _ => false end.

Definition is_array (v : jsval) : bool :=
  match v with JArray _ => true | _ => false end.

Definition field (v : jsval) (k : string) : jsval :=
  default JUndefined (member v k).

(** The options [configure] gets through: the value, its account and
    its transport can be dereferenced and [transport.iceServers] is an
    array.  Nothing is asked of [media], of the members of [account] or
    of [transport.wsServers]. *)
Definition dereferenceable (options : jsval) : bool :=
  negb (nullish options)
  && negb (nullish (field options "account"))
  && negb (nullish (field options "transport"))
  && is_array (field (field options "transport") "iceServers").

(** Options with every member the interface asks for, and one more. *)
Definition options_with_extra : jsval :=
  JObject [("account", JObject [("user", JString "alice");
                                ("password", JString "secret");
                                ("uri", JString "sip:alice@example.org");
                                ("name", JString "Alice")]);
           ("transport", JObject [("wsServers", JString "wss://example.org");
                                  ("iceServers", JArray [JString "stun:example.org"])]);
           ("media", JObject []);
           ("colour", JString "blue")].

(** Options without media preferences and without account members. *)
Definition options_without_media : jsval :=
  JObject [("account", JObject []);
           ("transport", JObject [("iceServers", JArray [])])].

Definition has_unrecognized (options : jsval) : bool :=
  match options with
  | JObject l => existsb (fun x => negb (recognized x.1)) l
  | _ => false
  end.

Definition lacks_required (options : jsval) : bool :=
  nullish (field options "account")
  || nullish (field options "transport")
  || nullish (field options "media")
  || nullish (field (field options "account") "user")
  || nullish (field (field options "account") "password")
  || nullish (field (field options "account") "uri").

Definition construction_fails (options : jsval) : bool :=
  match construct options with inl _ => true | inr _ => false end.


(** * Footprints

    What a piece of the class may do to the state, as a set of
    permissions on the primitives; [reach_by P s s'] holds when [s'] is
    [s] after a sequence of primitives [P] permits. *)

Inductive fld : Type :=
| Fua | FtransportConnectedPromise | FunregisteredPromise
| FregisteredPromise | Fregistered | FisReconnecting | Fsessions
| Flisteners | Farmed | Ftimers | Fengine_pending.

Record perm : Type := Perm {
  okA : action -> bool;   (* actions that may be emitted *)
  okP : pid -> bool;      (* promises that may be settled *)
  okK : cont -> bool;     (* continuations that may be parked *)
  okF : fld -> bool       (* fields that may be assigned *)
}.

(** Identities are scoped: whatever is settled, parked, attached or
    emitted names identities handed out before. *)
Definition pnum (p : pid) : nat :=
  match p with
  | PTransport n | PUnregistered n | PRegistered n | PConnect n
  | PDisconnect n | PInvite n | PReconnect n | PEngine n | PRetry n => n
  end.

(** The promise a continuation settles when it runs. *)
Definition holds (k : cont) : pid :=
  match k with
  | KConnectUnregistered r _ | KConnectTransport r _ | KConnectReturn r _ =>
      PConnect r
  | KDisconnectReturn r _ | KDisconnectUnregistered r _ | KDisconnectUa r _ =>
      PDisconnect r
  | KInviteRegistered r _ _ _ => PInvite r
  | KHandlerDisconnect t _ | KHandlerReconnect t _ => PTransport t
  | KReconnectRetry r _ => PReconnect r
  | KRetryAttempt q _ _ _ | KRetryFailed q _ _ _ => PRetry q
  end.

Definition handler_below (n : nat) (h : handler) : Prop :=
  match h with
  | HRegistered p | HRegistrationFailed p | HUnregistered p
  | HTransportCreated p | HConnected p | HDisconnected p => p < n
  | HInvite => True
  end.

Definition action_below (n : nat) (a : action) : Prop :=
  match a with
  | NewUA u | UaUnregister u | UaDisconnect u => u < n
  | EmitInvite x => x.(sobj) < n
  | _ => True
  end.

Definition timer_below (n : nat) (x : nat * nat * nat) : Prop := x.1.1 < n.

(** The promise of a connect() call is awaited by p-retry only, for a
    call it has made. *)
Definition awaited_below (n : nat) (k : cont) : Prop :=
  match k with
  | KRetryAttempt _ _ _ c => c < n
  | _ => True
  end.

Inductive reach_by (P : perm) (s : state) : state -> Prop :=
| rb_refl : reach_by P s s
| rb_emit a s' :
    okA P a = true -> action_below s'.(next) a ->
    reach_by P s s' -> reach_by P s (emit a s')
| rb_next s' : reach_by P s s' -> reach_by P s (set_next (S s'.(next)) s')
| rb_settle p o s' :
    okP P p = true -> pnum p < s'.(next) ->
    reach_by P s s' -> reach_by P s (settle p o s')
| rb_await k s' :
    okK P k = true -> pnum (holds k) < s'.(next) ->
    awaited_below s'.(next) k ->
    reach_by P s s' -> reach_by P s (await k s')
| rb_ua v s' : okF P Fua = true -> reach_by P s s' -> reach_by P s (set_ua v s')
| rb_transportConnectedPromise v s' :
    okF P FtransportConnectedPromise = true -> reach_by P s s' ->
    reach_by P s (set_transportConnectedPromise v s')
| rb_unregisteredPromise v s' :
    okF P FunregisteredPromise = true -> reach_by P s s' ->
    reach_by P s (set_unregisteredPromise v s')
| rb_registeredPromise v s' :
    okF P FregisteredPromise = true -> reach_by P s s' ->
    reach_by P s (set_registeredPromise v s')
| rb_registered v s' :
    okF P Fregistered = true -> reach_by P s s' ->
    reach_by P s (set_registered v s')
| rb_isReconnecting v s' :
    okF P FisReconnecting = true -> reach_by P s s' ->
    reach_by P s (set_isReconnecting v s')
| rb_sessions v s' :
    okF P Fsessions = true -> reach_by P s s' ->
    reach_by P s (set_sessions v s')
| rb_listeners v s' :
    okF P Flisteners = true ->
    (forall h, h ∈ v -> h ∈ s'.(listeners) \/ handler_below s'.(next) h) ->
    reach_by P s s' -> reach_by P s (set_listeners v s')
| rb_armed v s' :
    okF P Farmed = true ->
    (forall x, x ∈ v -> x ∈ s'.(armed) \/ x.(sobj) < s'.(next)) ->
    reach_by P s s' -> reach_by P s (set_armed v s')
| rb_timers v s' :
    okF P Ftimers = true ->
    (forall x, x ∈ v -> x ∈ s'.(timers) \/ timer_below s'.(next) x) ->
    reach_by P s s' -> reach_by P s (set_timers v s')
| rb_engine_pending v s' :
    okF P Fengine_pending = true ->
    (forall x, x ∈ v -> x ∈ s'.(engine_pending) \/ x < s'.(next)) ->
    reach_by P s s' ->
    reach_by P s (set_engine_pending v s').

(** [P] permits what [Q] permits. *)
Definition includes (P Q : perm) : Prop :=
  (forall a, okA Q a = true -> okA P a = true) /\
  (forall p, okP Q p = true -> okP P p = true) /\
  (forall k, okK Q k = true -> okK P k = true) /\
  (forall f, okF Q f = true -> okF P f = true).

(** The footprint of [connect]: configureUA, lines 71-108 and the
    continuations of [connect]. *)
Definition connect_perm : perm :=
  Perm (fun a => match a with
                 | ConsoleLog MConfiguringUa | NewUA _ | UaStart | UaRegister
                 | ConsoleError MCannotConnectWhileUnregistering => true
                 | _ => false
                 end)
       (fun p => match p with
                 | PConnect _ | PRegistered _ => true
                 | _ => false
                 end)
       (fun k => match k with
                 | KConnectUnregistered _ _ | KConnectTransport _ _
                 | KConnectReturn _ _ => true
                 | _ => false
                 end)
       (fun f => match f with
                 | Fua | FtransportConnectedPromise | FregisteredPromise
                 | Flisteners => true
                 | _ => false
                 end).

(** The footprint of the end of [disconnect] (lines 143-149). *)
Definition finish_perm : perm :=
  Perm (fun a => match a with ConsoleLog MDisconnected => true | _ => false end)
       (fun p => match p with PDisconnect _ => true | _ => false end)
       (fun _ => false)
       (fun f => match f with
                 | Fua | FunregisteredPromise | Flisteners => true
                 | _ => false
                 end).

(** The footprint of [disconnect] from line 139 on. *)
Definition teardown_perm : perm :=
  Perm (fun a => okA finish_perm a ||
                 match a with
                 | ConsoleLog MUnregistered | UaDisconnect _ => true
                 | _ => false
                 end)
       (okP finish_perm)
       (fun k => match k with KDisconnectUa _ _ => true | _ => false end)
       (fun f => okF finish_perm f ||
                 match f with Fengine_pending => true | _ => false end).

(** The footprint of [disconnect] (lines 111-150), called when the next
    fresh identity is [n] or a later one: the unregister command bears
    the identity of the call. *)
Definition disconnect_perm (n : nat) : perm :=
  Perm (fun a => okA teardown_perm a ||
                 match a with
                 | ConsoleLog MTryingToUnregister => true
                 | UaUnregister r => n <=? r
                 | _ => false
                 end)
       (okP teardown_perm)
       (fun k => okK teardown_perm k ||
                 match k with
                 | KDisconnectReturn _ _ | KDisconnectUnregistered _ _ => true
                 | _ => false
                 end)
       (fun f => okF teardown_perm f ||
                 match f with FregisteredPromise => true | _ => false end).

(** The footprint of [invite] (lines 154-172). *)
Definition invite_perm : perm :=
  Perm (fun a => match a with UaInvite _ => true | _ => false end)
       (fun p => match p with PInvite _ => true | _ => false end)
       (fun k => match k with KInviteRegistered _ _ _ _ => true | _ => false end)
       (fun f => match f with Fsessions | Farmed => true | _ => false end).

(** The footprint of p-retry around [connect]. *)
Definition retry_perm : perm :=
  Perm (fun a => okA connect_perm a ||
                 match a with
                 | ConsoleLog (MAttemptFailed _ _) | SetTimeout => true
                 | _ => false
                 end)
       (fun p => okP connect_perm p ||
                 match p with PRetry _ => true | _ => false end)
       (fun k => okK connect_perm k ||
                 match k with
                 | KRetryAttempt _ _ _ _ | KRetryFailed _ _ _ _ => true
                 | _ => false
                 end)
       (fun f => okF connect_perm f ||
                 match f with Ftimers => true | _ => false end).

(** The footprint of [reconnect] (lines 174-196). *)
Definition reconnect_perm : perm :=
  Perm (fun a => okA retry_perm a ||
                 match a with ConsoleLog MNotAttempting => true | _ => false end)
       (fun p => okP retry_perm p ||
                 match p with PReconnect _ => true | _ => false end)
       (fun k => okK retry_perm k ||
                 match k with KReconnectRetry _ _ => true | _ => false end)
       (fun f => okF retry_perm f ||
                 match f with FisReconnecting => true | _ => false end).

(** The footprint of the 'disconnected' handler up to its first
    [await] (lines 209-212). *)
Definition handler_start_perm (n : nat) : perm :=
  Perm (fun a => okA (disconnect_perm n) a ||
                 match a with
                 | ConsoleLog MUnexpectedDisconnect => true
                 | _ => false
                 end)
       (okP (disconnect_perm n))
       (fun k => okK (disconnect_perm n) k ||
                 match k with KHandlerDisconnect _ _ => true | _ => false end)
       (okF (disconnect_perm n)).

(** The footprint of the rest of the handler (lines 214-231). *)
Definition handler_perm : perm :=
  Perm (fun a => okA reconnect_perm a ||
                 match a with Unhandled _ => true | _ => false end)
       (fun p => okP reconnect_perm p ||
                 match p with PTransport _ => true | _ => false end)
       (fun k => okK reconnect_perm k ||
                 match k with KHandlerReconnect _ _ => true | _ => false end)
       (okF reconnect_perm).

(** The footprint of a continuation. *)
Definition cont_perm (k : cont) : perm :=
  match k with
  | KConnectUnregistered _ _ | KConnectTransport _ _ | KConnectReturn _ _ =>
      connect_perm
  | KDisconnectUnregistered _ _ => teardown_perm
  | KDisconnectReturn _ _ | KDisconnectUa _ _ => finish_perm
  | KInviteRegistered _ _ _ _ => invite_perm
  | KHandlerDisconnect _ _ | KHandlerReconnect _ _ => handler_perm
  | KReconnectRetry _ _ => reconnect_perm
  | KRetryAttempt _ _ _ _ | KRetryFailed _ _ _ _ => retry_perm
  end.

(** The footprint of the listeners of an event. *)
Definition listener_perm (n : nat) (e : event) : perm :=
  match e with
  | EvRegistered | EvRegistrationFailed =>
      Perm (fun _ => false)
           (fun p => match p with PRegistered _ => true | _ => false end)
           (fun _ => false)
           (fun f => match f with Fregistered => true | _ => false end)
  | EvUnregistered =>
      Perm (fun _ => false)
           (fun p => match p with PUnregistered _ => true | _ => false end)
           (fun _ => false)
           (fun f => match f with Fregistered => true | _ => false end)
  | EvTransportCreated =>
      Perm (fun a => match a with
                     | ConsoleLog MTransportCreated => true
                     | _ => false
                     end)
           (fun _ => false) (fun _ => false)
           (fun f => match f with Flisteners => true | _ => false end)
  | EvConnected =>
      Perm (fun a => match a with ConsoleLog MConnected => true | _ => false end)
           (fun p => match p with PTransport _ => true | _ => false end)
           (fun _ => false) (fun _ => false)
  | EvDisconnected => handler_start_perm n
  | EvInvite =>
      Perm (fun a => match a with EmitInvite _ => true | _ => false end)
           (fun _ => false) (fun _ => false)
           (fun f => match f with Fsessions | Farmed => true | _ => false end)
  end.

(** The footprint of the emission of an event. *)
Definition event_perm (n : nat) (e : event) : perm :=
  Perm (fun a => okA (listener_perm n e) a ||
                 match a with Unhandled ETypeError => true | _ => false end)
       (okP (listener_perm n e))
       (okK (listener_perm n e))
       (fun f => okF (listener_perm n e) f ||
                 match f with Flisteners => true | _ => false end).

(** The footprint of an input, up to the first [await]. *)
Definition input_perm (n : nat) (i : input) : perm :=
  match i with
  | CallConnect => connect_perm
  | CallDisconnect => disconnect_perm n
  | CallInvite _ _ => invite_perm
  | Engine e _ => event_perm n e
  | UaDisconnected =>
      Perm (fun _ => false)
           (fun p => match p with PEngine _ => true | _ => false end)
           (fun _ => false)
           (fun f => match f with Fengine_pending => true | _ => false end)
  | Terminated _ =>
      Perm (fun _ => false) (fun _ => false) (fun _ => false)
           (fun f => match f with Fsessions | Farmed => true | _ => false end)
  | Timer => retry_perm
  end.

(** Everything. *)
Definition any_perm : perm :=
  Perm (fun _ => true) (fun _ => true) (fun _ => true) (fun _ => true).

(** A continuation [P] may park, or wake by settling what it awaits. *)
Definition moves (P : perm) (k : cont) : bool :=
  okK P k || match awaited k with Some p => okP P p | None => false end.

(** The continuations in the system, parked or queued. *)
Definition conts (s : state) : list cont :=
  s.(waiting) ++ map fst s.(queue).

Definition count (Q : cont -> bool) (s : state) : nat :=
  length (List.filter Q (conts s)).

(** Every identity in the state was handed out by [fresh]. *)
Record wf (s : state) : Prop := Wf {
  wf_settled : Forall (fun x => pnum x.1 < s.(next)) s.(settled);
  wf_waiting : Forall (fun k => pnum (holds k) < s.(next)) s.(waiting);
  wf_awaited : Forall (awaited_below s.(next)) s.(waiting);
  wf_queue : Forall (fun x => pnum (holds x.1) < s.(next)) s.(queue);
  wf_timers : Forall (timer_below s.(next)) s.(timers);
  wf_listeners : Forall (handler_below s.(next)) s.(listeners);
  wf_armed : Forall (fun x => x.(sobj) < s.(next)) s.(armed);
  wf_engine_pending : Forall (fun x => x < s.(next)) s.(engine_pending);
  wf_trace : Forall (action_below s.(next)) (actions s.(trace))
}.

(** The states of the machine. *)
Inductive reachable : state -> Prop :=
| reach_fresh n : reachable (fresh_client n)
| reach_step fuel s i : reachable s -> reachable (step fuel s i).

(** * The session registry *)

Definition is_invite (k : cont) : bool :=
  match k with KInviteRegistered _ _ _ _ => true | _ => false end.

(** The inputs that create or end a session: an invite() call, an
    inbound invitation, a session's 'terminated' event. *)
Definition session_input (i : input) : bool :=
  match i with
  | CallInvite _ _ | Engine EvInvite _ | Terminated _ => true
  | _ => false
  end.

(** A footprint without the registry. *)
Definition session_free (P : perm) : Prop :=
  okF P Fsessions = false /\ okF P Farmed = false /\
  forall k, is_invite k = true -> okK P k = false.


(** An inbound call while registered. *)
Definition inbound_call : list input :=
  bring_up ++ [Engine EvInvite "call-1"].

(** disconnect() of a registered client, through to its end. *)
Definition full_disconnect : list input :=
  [CallDisconnect; ev EvUnregistered; UaDisconnected].

(** * Scenarios of the claims *)

(** connect() was called; the registration is in flight. *)
Definition registration_in_flight : state := run 20 init [CallConnect].

(** The rest of a successful registration. *)
Definition registration_completes : list input :=
  [ev EvTransportCreated; ev EvConnected; ev EvRegistered].

(** Two disconnect() calls on a registered client, the second one
    issued while the first one is in flight. *)
Definition overlapping_disconnects : list input :=
  bring_up ++ [CallDisconnect; CallDisconnect; ev EvUnregistered;
               UaDisconnected].

(** disconnect() was called on a registered client; the unregistration
    is in flight. *)
Definition unregistration_in_flight : state :=
  run 20 init (bring_up ++ [CallDisconnect]).


(** * The order of a teardown *)

(** In trace [t], the disconnect() call [r] told the engine to
    unregister, and the engine reported 'unregistered' afterwards. *)
Definition unregistered_after (r : nat) (t : list entry) : Prop :=
  exists t1 t2 t3 id,
    t = t1 ++ Do (UaUnregister r) :: t2
           ++ Got (Engine EvUnregistered id) :: t3.

(** Wherever a disconnect() call tears the transport down, if it has
    told the engine to unregister, the engine has reported
    'unregistered' in between. *)
Definition teardown_ordered (t : list entry) : Prop :=
  forall t1 t2 r,
    t = t1 ++ Do (UaDisconnect r) :: t2 ->
    Do (UaUnregister r) ∈ t1 -> unregistered_after r t1.

Record ordered_inv (s : state) : Prop := OrderedInv {
  oi_trace : teardown_ordered s.(trace);
  oi_queue : forall r q o,
    (KDisconnectUnregistered r q, o) ∈ s.(queue) ->
    unregistered_after r s.(trace);
  oi_waiting : forall r q,
    KDisconnectUnregistered r q ∈ s.(waiting) ->
    Do (UaUnregister r) ∈ s.(trace)
}.




(** * Reconnect supervision *)










(** * Reconnecting when every attempt fails *)

(** The trace from the first loss of the transport on. *)
Fixpoint since_loss (t : list entry) : list entry :=
  match t with
  | [] => []
  | Got (Engine EvDisconnected _) :: t' => t'
  | _ :: t' => since_loss t'
  end.

(** The connect() attempts of the reconnect supervision: every
    connect() that gets as far as creating a registration future starts
    the engine. *)
Definition attempts (s : state) : nat := starts (since_loss s.(trace)).


(** The reports [onFailedAttempt] gets when [m] attempts fail with
    retry limit [n]: attempt number and retries left. *)
Definition failure_reports (n m : nat) : list (nat * nat) :=
  map (fun k => (k, n - (k - 1))) (seq 1 m).

(** Inputs that are not calls of the application. *)
Definition from_environment (i : input) : bool :=
  match i with
  | CallConnect | CallDisconnect | CallInvite _ _ => false
  | _ => true
  end.

(** Between two attempts: the engine instance is gone, reconnect() and
    the handler wait, p-retry's timer for attempt [k + 1] is armed. *)
Definition backoff_state (n k next_id q r t0 t : nat)
    (sess : gmap string session) (arm : list session)
    (done : list (pid * outcome)) (tr : list entry) : state :=
  State None (Some t) None None None false true n sess [] arm done
    [KReconnectRetry r q; KHandlerReconnect t0 r] [] [(q, S k, n)] []
    next_id tr.



(** A reconnect attempt in flight: connect() waits for the transport of
    the new engine instance, p-retry for connect(). *)
Definition attempt_state (n k next_id q r t0 c : nat)
    (sess : gmap string session) (arm : list session)
    (done : list (pid * outcome)) (tr : list entry) : state :=
  State (Some (S c)) (Some (S (S c))) None (Some (S (S (S c)))) None
    false true n sess
    [HTransportCreated (S (S c)); HInvite; HRegistered (S (S (S c)));
     HRegistrationFailed (S (S (S c)))]
    arm done
    [KReconnectRetry r q; KHandlerReconnect t0 r;
     KConnectTransport c (Some (S (S c))); KRetryAttempt q k n c]
    [] [] [] next_id tr.

(** * Reconnecting when an attempt succeeds *)

(** A reconnect attempt succeeds: the transport of the new engine
    instance is created and connects, the registration is confirmed. *)
Definition successful_attempt : list input :=
  [ev EvTransportCreated; ev EvConnected; ev EvRegistered].

(** [k] attempts fail, the next one succeeds. *)
Fixpoint fail_then_succeed (k : nat) : list input :=
  match k with
  | 0 => successful_attempt
  | S k => failed_attempt ++ [Timer] ++ fail_then_succeed k
  end.

(** A client with retry limit [n] registers, loses its transport, and
    sees [k] reconnect attempts fail before one succeeds. *)
Definition reconnect_succeeds (fuel n k : nat) : state :=
  run fuel (fresh_client n) (bring_up ++ transport_loss ++ fail_then_succeed k).

(** After the attempt that succeeds: registered on the new engine
    instance, nothing parked, no timer armed. *)
Definition reconnected_state (n next_id c : nat)
    (sess : gmap string session) (arm : list session)
    (done : list (pid * outcome)) (tr : list entry) : state :=
  State (Some (S c)) (Some (S (S c))) None (Some (S (S (S c)))) None
    true false n sess
    [HInvite; HRegistrationFailed (S (S (S c))); HDisconnected (S (S c))]
    arm done [] [] [] [] next_id tr.

(** * What is awaited, and the listeners of the engine instance *)

(** The promise a continuation waits for was created before [n]. *)
Definition awaits_below (n : nat) (k : cont) : Prop :=
  match awaited k with Some p => pnum p < n | None => True end.

Definition field_below (n : nat) (x : option nat) : Prop :=
  match x with Some p => p < n | None => True end.

Definition is_invite_listener (h : handler) : bool :=
  match h with HInvite => true | _ => false end.

(** The promises parked continuations wait for and the promises the
    fields hold exist; a client without engine instance has no listener
    and no unregistration future (lines 145-149 clear them together);
    an engine instance has exactly one 'invite' listener (line 236);
    [disconnectPromise] is unset. *)
Record tidy (s : state) : Prop := Tidy {
  tidy_waiting : Forall (awaits_below s.(next)) s.(waiting);
  tidy_transport : field_below s.(next) s.(transportConnectedPromise);
  tidy_unregistered : field_below s.(next) s.(unregisteredPromise);
  tidy_registered : field_below s.(next) s.(registeredPromise);
  tidy_disconnect : s.(disconnectPromise) = None;
  tidy_idle :
    s.(ua) = None -> s.(listeners) = [] /\ s.(unregisteredPromise) = None;
  tidy_invite :
    s.(ua) <> None ->
    length (List.filter is_invite_listener s.(listeners)) = 1
}.

(** * Sessions in the registry *)


(** * Waiting for the unregistration to be acknowledged *)

(** A registered client loses its transport. *)
Definition loss_while_registered : list input :=
  bring_up ++ [ev EvDisconnected].

(** What the environment may send short of the engine's 'unregistered'
    event. *)
Definition unacknowledged (i : input) : bool :=
  match i with
  | Engine EvUnregistered _ => false
  | i => from_environment i
  end.

(** The client after the loss: the disconnect() of the 'disconnected'
    handler has asked the engine to unregister and waits for the
    'unregistered' event, the handler waits for disconnect(). *)
Definition awaiting_unregistered (n next_id : nat) (l : list handler)
    (sess : gmap string session) (arm : list session) (tr : list entry)
    : state :=
  State (Some 1) (Some 2) (Some 5) None None true false n sess l arm
    [(PConnect 0, Fulfilled true); (PRegistered 3, Fulfilled true);
     (PTransport 2, Fulfilled true)]
    [KDisconnectUnregistered 4 5; KHandlerDisconnect 2 4] [] [] []
    next_id tr.

(** * Configuration *)

Lemma own_recognized k l :
  recognized k = true ->
  own k (List.filter (fun x => recognized x.1) l) = own k l.
Proof.
  intros Hk. induction l as [|[k' v] l IH]; [reflexivity|].
  cbn [List.filter fst own]. destruct (recognized k') eqn:Hr.
  - cbn [own]. rewrite IH. reflexivity.
  - destruct (String.eqb k k') eqn:E; [|exact IH].
    apply String.eqb_eq in E. subst. congruence.
Qed.

Lemma member_recognized_only o k :
  recognized k = true -> member (recognized_only o) k = member o k.
Proof.
  intros Hk. destruct o; try reflexivity.
  cbn [recognized_only member]. f_equal. apply own_recognized, Hk.
Qed.

(** C9, the claim as stated, fails: options carrying an unrecognized
    member, and options lacking the media preferences and every account
    member, both construct a client. *)
Lemma configure_accepts_extra_and_missing :
  has_unrecognized options_with_extra = true /\
  construction_fails options_with_extra = false /\
  lacks_required options_without_media = true /\
  construction_fails options_without_media = false.
Proof. repeat split; vm_compute; reflexivity. Qed.

(** C9, as the code has it: [configure] reads the members account,
    transport and media and nothing else, so members it does not name
    are ignored; construction fails exactly when the options, the
    account or the transport cannot be dereferenced or
    [transport.iceServers] is not an array, the error then is the
    TypeError of the member access, and a client that is constructed
    starts from the declared field values. *)
Theorem configure_validates_nothing (options : jsval) :
  construct (recognized_only options) = construct options /\
  match construct options with
  | inl e => e = ETypeError /\ dereferenceable options = false
  | inr (_, s) => s = init /\ dereferenceable options = true
  end.
Proof.
  split.
  - unfold construct, configure.
    rewrite !member_recognized_only by reflexivity. reflexivity.
  - unfold construct, configure, dereferenceable, field.
    destruct options as [| | | | | |l]; cbn; try (split; reflexivity).
    destruct (own "account" l) as [| | | | | |la]; cbn; try (split; reflexivity);
    destruct (own "transport" l) as [| | | | | |lt]; cbn; try (split; reflexivity);
    destruct (own "iceServers" lt); cbn; split; reflexivity.
Qed.

(** * Footprints of the methods *)

Lemma next_settle p o s : next (settle p o s) = next s.
Proof. unfold settle. case_match; reflexivity. Qed.

Lemma next_await k s : next (await k s) = next s.
Proof. unfold await, enqueue. repeat case_match; reflexivity. Qed.

Lemma reach_by_trans P s1 s2 s3 :
  reach_by P s1 s2 -> reach_by P s2 s3 -> reach_by P s1 s3.
Proof.
  intros H12 H23. induction H23; eauto using reach_by.
Qed.

Lemma reach_by_mono P Q s s' :
  includes P Q -> reach_by Q s s' -> reach_by P s s'.
Proof.
  intros (HA & HP & HK & HF) H. induction H; eauto using reach_by.
Qed.

Lemma reach_by_next P s s' : reach_by P s s' -> next s <= next s'.
Proof.
  induction 1; rewrite ?next_settle, ?next_await; cbn; lia.
Qed.

Lemma includes_refl P : includes P P.
Proof. repeat split; auto. Qed.

Lemma retry_includes_connect : includes retry_perm connect_perm.
Proof.
  repeat split; intros x Hx; cbn -[connect_perm]; rewrite Hx; reflexivity.
Qed.

Lemma reconnect_includes_retry : includes reconnect_perm retry_perm.
Proof.
  repeat split; intros x Hx; cbn -[retry_perm]; rewrite Hx; reflexivity.
Qed.

Lemma teardown_includes_finish : includes teardown_perm finish_perm.
Proof.
  repeat split; intros x Hx; cbn -[finish_perm];
    rewrite ?Hx; try reflexivity; try assumption; discriminate.
Qed.

Lemma disconnect_includes_teardown n :
  includes (disconnect_perm n) teardown_perm.
Proof.
  repeat split; intros x Hx; cbn -[teardown_perm];
    rewrite ?Hx; try reflexivity; assumption.
Qed.

Lemma handler_includes_reconnect : includes handler_perm reconnect_perm.
Proof.
  repeat split; intros x Hx; cbn -[reconnect_perm];
    rewrite ?Hx; try reflexivity; assumption.
Qed.

Lemma handler_start_includes_disconnect n :
  includes (handler_start_perm n) (disconnect_perm n).
Proof.
  repeat split; intros x Hx; cbn -[disconnect_perm];
    rewrite ?Hx; try reflexivity; assumption.
Qed.

Lemma disconnect_perm_mono n m :
  n <= m -> includes (disconnect_perm n) (disconnect_perm m).
Proof.
  intros Hnm. repeat split; intros x Hx; try exact Hx.
  destruct x; try exact Hx. cbn in *.
  apply Nat.leb_le in Hx. apply Nat.leb_le. lia.
Qed.

Lemma handler_start_perm_mono n m :
  n <= m -> includes (handler_start_perm n) (handler_start_perm m).
Proof.
  intros Hnm. repeat split; intros x Hx; try exact Hx.
  destruct x; try exact Hx. cbn in *.
  rewrite orb_false_r in *.
  apply Nat.leb_le in Hx. apply Nat.leb_le. lia.
Qed.

Lemma any_includes P : includes any_perm P.
Proof. repeat split; reflexivity. Qed.

(** [next] of a state expression. *)
Ltac next_simpl :=
  unfold timer_below in *;
  repeat (rewrite ?next_settle, ?next_await in *;
          cbn [next emit add_listener enqueue set_ua
               set_transportConnectedPromise set_unregisteredPromise
               set_registeredPromise set_registered set_isReconnecting
               set_sessions set_listeners set_armed set_settled set_waiting
               set_queue set_timers set_engine_pending set_next set_trace
               pnum holds action_below handler_below awaited_below
               sobj fst snd] in *).

Ltac next_facts :=
  repeat match goal with
         | H : reach_by _ ?a ?b |- _ =>
             lazymatch goal with
             | _ : next a <= next b |- _ => fail
             | _ => pose proof (reach_by_next _ _ _ H)
             end
         end.

(** Side conditions: a permission, or the scope of an identity. *)
Ltac rb_side :=
  first
    [ reflexivity
    | cbn; rewrite ?orb_false_r; apply Nat.leb_le; next_simpl; lia
    | next_facts; next_simpl; first [exact I | lia]
    | let x := fresh in let Hx := fresh in
      intros x Hx; apply elem_of_app in Hx as [Hx|Hx];
      [left; exact Hx|right; apply list_elem_of_singleton in Hx; subst x;
                      next_facts; next_simpl; first [exact I | lia]]
    | let x := fresh in let Hx := fresh in
      intros x Hx; apply elem_of_nil in Hx; destruct Hx ].

Ltac rb_setter :=
  lazymatch goal with
  | |- reach_by _ _ (set_ua _ _) => apply rb_ua
  | |- reach_by _ _ (set_transportConnectedPromise _ _) =>
      apply rb_transportConnectedPromise
  | |- reach_by _ _ (set_unregisteredPromise _ _) =>
      apply rb_unregisteredPromise
  | |- reach_by _ _ (set_registeredPromise _ _) => apply rb_registeredPromise
  | |- reach_by _ _ (set_registered _ _) => apply rb_registered
  | |- reach_by _ _ (set_isReconnecting _ _) => apply rb_isReconnecting
  | |- reach_by _ _ (set_sessions _ _) => apply rb_sessions
  | |- reach_by _ _ (set_listeners _ _) => apply rb_listeners
  | |- reach_by _ _ (set_armed _ _) => apply rb_armed
  | |- reach_by _ _ (set_timers _ _) => apply rb_timers
  | |- reach_by _ _ (set_engine_pending _ _) => apply rb_engine_pending
  end.

Ltac rb_step :=
  lazymatch goal with
  | |- reach_by _ ?s ?s => apply rb_refl
  | H : reach_by ?P ?e ?s1 |- reach_by ?P _ ?s1 =>
      apply (reach_by_trans P _ e s1); [|exact H]
  | |- reach_by _ _ (emit _ _) => apply rb_emit; [rb_side|rb_side|]
  | |- reach_by _ _ (set_next _ _) => apply rb_next
  | |- reach_by _ _ (settle _ _ _) => apply rb_settle; [rb_side|rb_side|]
  | |- reach_by _ _ (await _ _) => apply rb_await; [rb_side|rb_side|rb_side|]
  | |- reach_by _ _ (add_listener _ _) => unfold add_listener
  | |- reach_by _ _ (match ?x with _ => _ end) => destruct x eqn:?
  | |- reach_by _ _ _ => rb_setter; [rb_side..|]
  end.

Ltac rb := cbv beta iota zeta delta [fresh]; repeat rb_step.

Lemma configureUA_by s : reach_by connect_perm s (configureUA s).
Proof. unfold configureUA. rb. Qed.

Lemma connect_tail_by r s :
  r < next s -> reach_by connect_perm s (connect_tail r s).
Proof. intros Hr. unfold connect_tail. rb. Qed.

Lemma connect_call_from s :
  reach_by connect_perm (set_next (S (next s)) s) (connect_call s).2.
Proof.
  unfold connect_call. cbv beta iota zeta delta [fresh].
  assert (H : reach_by connect_perm (set_next (S (next s)) s)
    match ua (set_next (S (next s)) s) with
    | Some _ => set_next (S (next s)) s
    | None => configureUA (emit (ConsoleLog MConfiguringUa) (set_next (S (next s)) s))
    end).
  { destruct (ua _).
    - rb.
    - eapply reach_by_trans; [|apply configureUA_by]. rb. }
  revert H. generalize (match ua (set_next (S (next s)) s) with
    | Some _ => set_next (S (next s)) s
    | None => configureUA (emit (ConsoleLog MConfiguringUa) (set_next (S (next s)) s))
    end). intros s1 H.
  destruct (unregisteredPromise s1); cbn [snd].
  - apply rb_await; [reflexivity|rb_side|exact I|].
    apply rb_emit; [reflexivity|exact I|]. exact H.
  - eapply reach_by_trans; [exact H|].
    apply connect_tail_by. apply reach_by_next in H. cbn in H. lia.
Qed.

Lemma connect_call_by s : reach_by connect_perm s (connect_call s).2.
Proof.
  eapply reach_by_trans; [|apply connect_call_from]. rb.
Qed.

Lemma connect_call_next s : next s < next (connect_call s).2.
Proof.
  pose proof (reach_by_next _ _ _ (connect_call_from s)) as H.
  cbn [next set_next] in H. lia.
Qed.

Lemma connect_call_result s : (connect_call s).1 = next s.
Proof.
  unfold connect_call. cbv beta iota zeta delta [fresh].
  repeat case_match; reflexivity.
Qed.

Lemma connect_transport_by r o s :
  r < next s -> reach_by connect_perm s (connect_transport r o s).
Proof. intros Hr. unfold connect_transport. rb. Qed.

Lemma disconnect_tail_by r s :
  r < next s -> reach_by teardown_perm s (disconnect_tail r s).
Proof. intros Hr. unfold disconnect_tail. rb. Qed.

Lemma disconnect_call_by s :
  reach_by (disconnect_perm (next s)) s (disconnect_call s).2.
Proof.
  unfold disconnect_call. cbv beta iota zeta delta [fresh].
  repeat (lazymatch goal with
          | |- reach_by _ _ (snd (match ?x with _ => _ end)) => destruct x eqn:?
          end); cbn [snd]; try solve [rb].
  eapply reach_by_trans;
    [|apply (reach_by_mono _ _ _ _ (disconnect_includes_teardown _)),
        disconnect_tail_by; cbn; lia].
  rb.
Qed.

Lemma disconnect_call_result s : (disconnect_call s).1 = next s.
Proof.
  unfold disconnect_call. cbv beta iota zeta delta [fresh].
  repeat case_match; reflexivity.
Qed.

Lemma disconnect_finish_by r s :
  r < next s -> reach_by finish_perm s (disconnect_finish r s).
Proof. intros Hr. unfold disconnect_finish. rb. Qed.

Lemma invite_call_by phone id s :
  reach_by invite_perm s (invite_call phone id s).2.
Proof.
  unfold invite_call. cbv beta iota zeta delta [fresh].
  destruct (registeredPromise _); cbn [snd]; rb.
Qed.

Lemma invite_finish_by r phone id s :
  r < next s -> reach_by invite_perm s (invite_finish r phone id s).
Proof. intros Hr. unfold invite_finish. rb. Qed.

Lemma retry_attempt_by q k n s :
  q < next s -> reach_by retry_perm s (retry_attempt q k n s).
Proof.
  intros Hq. unfold retry_attempt.
  pose proof (reach_by_mono _ _ _ _ retry_includes_connect (connect_call_by s)) as H.
  pose proof (connect_call_result s) as Hc.
  pose proof (connect_call_next s) as Hn.
  destruct (connect_call s) as [c s1]; cbn [fst snd] in H, Hc, Hn. subst c. rb.
Qed.

Lemma retry_settled_by q k n o s :
  q < next s -> reach_by retry_perm s (retry_settled q k n o s).
Proof. intros Hq. unfold retry_settled. rb. Qed.

Lemma retry_failed_by q k n e s :
  q < next s -> reach_by retry_perm s (retry_failed q k n e s).
Proof. intros Hq. unfold retry_failed. rb. Qed.

Lemma reconnect_call_by s : reach_by reconnect_perm s (reconnect_call s).2.
Proof.
  unfold reconnect_call. cbv beta iota zeta delta [fresh]. cbn [snd].
  match goal with
  | |- reach_by _ _ (await _ (retry_attempt ?q ?k ?n ?e)) =>
      assert (H : reach_by reconnect_perm e (retry_attempt q k n e));
      [|assert (H0 : reach_by reconnect_perm s e) by rb]
  end.
  { apply (reach_by_mono _ _ _ _ reconnect_includes_retry), retry_attempt_by.
    cbn. lia. }
  apply rb_await; [reflexivity| |exact I|eapply reach_by_trans; eassumption].
  apply reach_by_next in H. cbn in *. lia.
Qed.

Lemma reconnect_call_result s : (reconnect_call s).1 = next s.
Proof. reflexivity. Qed.

Lemma reconnect_finish_by r o s :
  r < next s -> reach_by reconnect_perm s (reconnect_finish r o s).
Proof. intros Hr. unfold reconnect_finish. rb. Qed.

Lemma handler_start_by t s :
  t < next s -> reach_by (handler_start_perm (next s)) s (handler_start t s).
Proof.
  intros Ht. unfold handler_start.
  pose proof (reach_by_mono _ _ _ _ (handler_start_includes_disconnect _)
                (disconnect_call_by (emit (ConsoleLog MUnexpectedDisconnect) s))) as H.
  cbn [next emit set_trace] in H.
  destruct (disconnect_call _) as [d s1]; cbn [snd] in H. rb.
Qed.

Lemma handler_disconnected_by t o s :
  t < next s -> reach_by handler_perm s (handler_disconnected t o s).
Proof.
  intros Ht. unfold handler_disconnected. destruct o; [|rb].
  destruct (isReconnecting s); [rb|].
  pose proof (reach_by_mono _ _ _ _ handler_includes_reconnect
                (reconnect_call_by s)) as H.
  destruct (reconnect_call s) as [c s1]; cbn [snd] in H. rb.
Qed.

Lemma handler_reconnected_by t o s :
  t < next s -> reach_by handler_perm s (handler_reconnected t o s).
Proof. intros Ht. unfold handler_reconnected. rb. Qed.

(** * What a footprint leaves alone *)

Lemma pid_eqb_eq a b : pid_eqb a b = true <-> a = b.
Proof.
  split.
  - destruct a, b; cbn; try discriminate; intros H;
      apply Nat.eqb_eq in H; subst; reflexivity.
  - intros <-. destruct a; cbn; apply Nat.eqb_refl.
Qed.

Lemma pid_eqb_refl a : pid_eqb a a = true.
Proof. apply pid_eqb_eq. reflexivity. Qed.

Lemma pstate_settle_other p p' o s :
  pid_eqb p p' = false -> pstate (settle p' o s) p = pstate s p.
Proof.
  intros Hne. unfold settle. destruct (pstate s p') eqn:E; [reflexivity|].
  unfold pstate. cbn. rewrite Hne. reflexivity.
Qed.

Lemma pstate_settle_same p o s :
  pstate (settle p o s) p = Some (default o (pstate s p)).
Proof.
  unfold settle. destruct (pstate s p) eqn:E; cbn; [exact E|].
  unfold pstate. cbn. rewrite pid_eqb_refl. reflexivity.
Qed.

Lemma pstate_settle_mono p p' o o' s :
  pstate s p = Some o -> pstate (settle p' o' s) p = Some o.
Proof.
  intros H. destruct (pid_eqb p p') eqn:E.
  - apply pid_eqb_eq in E. subst. rewrite pstate_settle_same, H. reflexivity.
  - rewrite pstate_settle_other; assumption.
Qed.

Lemma pstate_await k s p : pstate (await k s) p = pstate s p.
Proof. unfold await, enqueue. repeat case_match; reflexivity. Qed.

Lemma filter_split_length {A} (Q w : A -> bool) (l : list A) :
  length (List.filter Q (List.filter (fun k => negb (w k)) l))
  + length (List.filter Q (List.filter w l))
  = length (List.filter Q l).
Proof.
  induction l as [|x l IH]; [reflexivity|].
  cbn. destruct (w x), (Q x) eqn:EQ; cbn; rewrite ?EQ; cbn; lia.
Qed.


Lemma filter_filter_all {A} (f g : A -> bool) (l : list A) :
  (forall x, g x = false -> f x = false) ->
  List.filter f (List.filter g l) = List.filter f l.
Proof.
  intros H. induction l as [|x l IH]; [reflexivity|].
  cbn. destruct (g x) eqn:E; cbn.
  - rewrite IH. reflexivity.
  - rewrite (H x E). exact IH.
Qed.


Lemma map_fst_pair {A B} (o : B) (l : list A) :
  map fst (map (fun k => (k, o)) l) = l.
Proof. induction l; cbn; congruence. Qed.

Section Consequences.
Context (P : perm).

Lemma reach_by_constants s s' :
  reach_by P s s' ->
  disconnectPromise s' = disconnectPromise s /\ retries s' = retries s.
Proof.
  induction 1; cbn; auto.
  - unfold settle. case_match; cbn; auto.
  - unfold await, enqueue. repeat case_match; cbn; auto.
Qed.

Ltac field_frame :=
  induction 1; cbn; auto; try congruence;
  [ unfold settle; case_match; cbn; auto
  | unfold await, enqueue; repeat case_match; cbn; auto ].

Lemma reach_by_ua s s' :
  okF P Fua = false -> reach_by P s s' -> ua s' = ua s.
Proof. intros HF. field_frame. Qed.

Lemma reach_by_transportConnectedPromise s s' :
  okF P FtransportConnectedPromise = false -> reach_by P s s' ->
  transportConnectedPromise s' = transportConnectedPromise s.
Proof. intros HF. field_frame. Qed.

Lemma reach_by_unregisteredPromise s s' :
  okF P FunregisteredPromise = false -> reach_by P s s' ->
  unregisteredPromise s' = unregisteredPromise s.
Proof. intros HF. field_frame. Qed.

Lemma reach_by_registeredPromise s s' :
  okF P FregisteredPromise = false -> reach_by P s s' ->
  registeredPromise s' = registeredPromise s.
Proof. intros HF. field_frame. Qed.

Lemma reach_by_registered s s' :
  okF P Fregistered = false -> reach_by P s s' ->
  registered s' = registered s.
Proof. intros HF. field_frame. Qed.


Lemma reach_by_sessions s s' :
  okF P Fsessions = false -> reach_by P s s' -> sessions s' = sessions s.
Proof. intros HF. field_frame. Qed.

Lemma reach_by_listeners s s' :
  okF P Flisteners = false -> reach_by P s s' -> listeners s' = listeners s.
Proof. intros HF. field_frame. Qed.

Lemma reach_by_armed s s' :
  okF P Farmed = false -> reach_by P s s' -> armed s' = armed s.
Proof. intros HF. field_frame. Qed.


Lemma reach_by_engine_pending s s' :
  okF P Fengine_pending = false -> reach_by P s s' ->
  engine_pending s' = engine_pending s.
Proof. intros HF. field_frame. Qed.


Lemma reach_by_settled s s' p o :
  reach_by P s s' -> pstate s p = Some o -> pstate s' p = Some o.
Proof.
  induction 1; auto; intros Hp.
  - apply pstate_settle_mono. auto.
  - rewrite pstate_await. auto.
Qed.


Lemma moves_waits p k : okP P p = true -> waits_on p k = true -> moves P k = true.
Proof.
  unfold waits_on, moves. intros Hp Hw.
  destruct (awaited k) as [p'|]; [|discriminate].
  apply pid_eqb_eq in Hw. subst. rewrite Hp. apply orb_true_r.
Qed.

Lemma moves_parked k : okK P k = true -> moves P k = true.
Proof. unfold moves. intros ->. reflexivity. Qed.

(** Continuations the footprint cannot move stay where they are. *)
Lemma reach_by_waiting s s' :
  reach_by P s s' ->
  List.filter (fun k => negb (moves P k)) (waiting s')
  = List.filter (fun k => negb (moves P k)) (waiting s).
Proof.
  induction 1; auto.
  - rewrite <- IHreach_by. unfold settle. case_match; cbn; [reflexivity|].
    apply filter_filter_all. intros k Hk.
    apply negb_false_iff in Hk. rewrite (moves_waits _ _ H Hk). reflexivity.
  - rewrite <- IHreach_by. unfold await, enqueue.
    repeat case_match; cbn; try reflexivity.
    rewrite List.filter_app. cbn. rewrite (moves_parked _ H). cbn.
    apply app_nil_r.
Qed.


(** Continuations the footprint cannot park are neither created nor
    dropped. *)
Lemma reach_by_count Q s s' :
  (forall k, Q k = true -> okK P k = false) ->
  reach_by P s s' -> count Q s' = count Q s.
Proof.
  intros HQ. induction 1; auto.
  - rewrite <- IHreach_by. unfold settle, count, conts.
    case_match; cbn; [reflexivity|].
    rewrite map_app, map_fst_pair, !List.filter_app, !length_app.
    pose proof (filter_split_length Q (waits_on p) (waiting s')). lia.
  - rewrite <- IHreach_by. unfold await, enqueue, count, conts.
    assert (HQk : Q k = false).
    { destruct (Q k) eqn:E; [|reflexivity]. apply HQ in E. congruence. }
    repeat case_match; cbn;
      rewrite ?map_app, !List.filter_app, !length_app; cbn;
      rewrite HQk; cbn; rewrite ?length_app; cbn; lia.
Qed.
End Consequences.

(** * Identities are scoped *)

Lemma handler_below_mono n m h : n <= m -> handler_below n h -> handler_below m h.
Proof. destruct h; cbn; intros; try exact I; lia. Qed.

Lemma action_below_mono n m a : n <= m -> action_below n a -> action_below m a.
Proof. destruct a; cbn; intros; try exact I; lia. Qed.

Lemma awaited_below_mono n m k : n <= m -> awaited_below n k -> awaited_below m k.
Proof. destruct k; cbn; intros; try exact I; lia. Qed.

Lemma actions_app t1 t2 : actions (t1 ++ t2) = actions t1 ++ actions t2.
Proof.
  induction t1 as [|[i|a] t1 IH]; cbn; [reflexivity|exact IH|].
  rewrite IH. reflexivity.
Qed.

Lemma actions_map_Do l : actions (map Do l) = l.
Proof. induction l; cbn; congruence. Qed.

Lemma wf_mono s n :
  wf s -> s.(next) <= n -> wf (set_next n s).
Proof.
  intros [Hs Hw Haw Hq Ht Hl Ha He Htr] Hn. split; cbn.
  - eapply Forall_impl; [exact Hs|]. cbn. intros; lia.
  - eapply Forall_impl; [exact Hw|]. cbn. intros; lia.
  - eapply Forall_impl; [exact Haw|]. intros x. apply awaited_below_mono, Hn.
  - eapply Forall_impl; [exact Hq|]. cbn. intros; lia.
  - eapply Forall_impl; [exact Ht|]. unfold timer_below. intros; lia.
  - eapply Forall_impl; [exact Hl|]. intros x. apply handler_below_mono, Hn.
  - eapply Forall_impl; [exact Ha|]. cbn. intros; lia.
  - eapply Forall_impl; [exact He|]. cbn. intros; lia.
  - eapply Forall_impl; [exact Htr|]. intros x. apply action_below_mono, Hn.
Qed.

Lemma Forall_filter_bool {A} (P : A -> Prop) (f : A -> bool) l :
  Forall P l -> Forall P (List.filter f l).
Proof.
  induction 1; cbn; [constructor|]. destruct (f x); auto.
Qed.

Lemma wf_settle p o s : wf s -> pnum p < next s -> wf (settle p o s).
Proof.
  intros [] Hp. unfold settle. case_match; [split; assumption|].
  split; cbn; auto using Forall_filter_bool.
  apply Forall_app. split; [assumption|].
  apply Forall_map. cbn. apply Forall_filter_bool. assumption.
Qed.

Lemma wf_await k s :
  wf s -> pnum (holds k) < next s -> awaited_below (next s) k ->
  wf (await k s).
Proof.
  intros [] Hk Ha. unfold await, enqueue.
  repeat case_match; split; cbn; auto; apply Forall_app; auto.
Qed.

Lemma Forall_from {A} (P : A -> Prop) (l v : list A) :
  Forall P l -> (forall x, x ∈ v -> x ∈ l \/ P x) -> Forall P v.
Proof.
  intros Hl Hv. apply Forall_forall. intros x Hx.
  destruct (Hv x Hx) as [Hin|]; [|assumption].
  rewrite Forall_forall in Hl. auto.
Qed.

Lemma reach_by_wf P s s' : reach_by P s s' -> wf s -> wf s'.
Proof.
  induction 1; intros Hwf; auto;
    try specialize (IHreach_by Hwf).
  - destruct IHreach_by. split; cbn; auto.
    rewrite actions_app. apply Forall_app. split; [assumption|].
    cbn. auto.
  - apply wf_mono; [assumption|lia].
  - apply wf_settle; assumption.
  - apply wf_await; assumption.
  - destruct IHreach_by; split; assumption.
  - destruct IHreach_by; split; assumption.
  - destruct IHreach_by; split; assumption.
  - destruct IHreach_by; split; assumption.
  - destruct IHreach_by; split; assumption.
  - destruct IHreach_by; split; assumption.
  - destruct IHreach_by; split; assumption.
  - destruct IHreach_by; split; cbn; eauto using Forall_from.
  - destruct IHreach_by; split; cbn; eauto using Forall_from.
  - destruct IHreach_by; split; cbn; eauto using Forall_from.
  - destruct IHreach_by; split; cbn; eauto using Forall_from.
Qed.

(** ** Footprints of the listeners and of the machine *)

Lemma fire_by h id s :
  handler_below (next s) h ->
  reach_by (listener_perm (next s) (event_of h)) s (fire h id s).1.
Proof.
  intros Hh. destruct h; cbn [fire handler_below fst event_of] in *;
    try solve [rb].
  - cbv zeta. destruct (ua _); cbn [fst]; rb.
  - apply handler_start_by, Hh.
  - cbv beta iota zeta delta [fresh]. cbn [fst]. rb.
Qed.

Lemma event_eqb_eq a b : event_eqb a b = true -> a = b.
Proof. destruct a, b; cbn; congruence. Qed.

Lemma event_includes_listener n e :
  includes (event_perm n e) (listener_perm n e).
Proof.
  repeat split; intros x Hx; cbn -[listener_perm];
    rewrite ?Hx; try reflexivity; assumption.
Qed.

Lemma elem_of_remove_first h x l : x ∈ remove_first h l -> x ∈ l.
Proof.
  induction l as [|y l IH]; cbn; [auto|].
  destruct (handler_eqb h y).
  - intros. right. assumption.
  - intros [->|Hx]%elem_of_cons; [left|right; auto].
Qed.

Lemma listener_perm_mono n m e :
  n <= m -> includes (listener_perm n e) (listener_perm m e).
Proof.
  intros Hnm. destruct e;
    first [apply handler_start_perm_mono, Hnm | apply includes_refl].
Qed.

Lemma event_perm_mono n m e :
  n <= m -> includes (event_perm n e) (event_perm m e).
Proof.
  intros Hnm. destruct (listener_perm_mono n m e Hnm) as (HA & HP & HK & HF).
  repeat split; intros x Hx; cbn -[listener_perm] in *;
    try (apply orb_true_iff in Hx as [Hx|Hx];
         apply orb_true_iff; [left|right]); auto.
Qed.

Lemma emit_event_by e snapshot id s :
  Forall (handler_below (next s)) snapshot ->
  reach_by (event_perm (next s) e) s (emit_event e snapshot id s).
Proof.
  revert s. induction snapshot as [|h snapshot IH]; intros s Hs; cbn.
  { apply rb_refl. }
  apply Forall_cons in Hs as [Hh Hs].
  destruct (event_eqb (event_of h) e) eqn:He; [|auto].
  apply event_eqb_eq in He.
  set (s1 := if is_once h then _ else s).
  assert (H1 : reach_by (event_perm (next s) e) s s1).
  { subst s1. destruct (is_once h); [|apply rb_refl].
    apply rb_listeners; [apply orb_true_r| |apply rb_refl].
    intros x Hx. left. eapply elem_of_remove_first, Hx. }
  assert (Hn : next s1 = next s) by (subst s1; destruct (is_once h); reflexivity).
  pose proof (fire_by h id s1) as H2. rewrite Hn, He in H2.
  specialize (H2 Hh).
  apply (reach_by_mono _ _ _ _ (event_includes_listener _ e)) in H2.
  destruct (fire h id s1) as [s2 []]; cbn [fst] in H2.
  - eapply reach_by_trans; [eapply reach_by_trans; eassumption|].
    assert (Hle : next s <= next s2) by (apply reach_by_next in H2; lia).
    eapply reach_by_mono; [apply (event_perm_mono _ _ e Hle)|].
    apply IH. eapply Forall_impl; [exact Hs|].
    intros x. apply handler_below_mono. exact Hle.
  - apply rb_emit; [apply orb_true_r|exact I|].
    eapply reach_by_trans; eassumption.
Qed.

Lemma foldl_delete_by P (hit : list session) s :
  okF P Fsessions = true ->
  reach_by P s
    (foldl (fun s x => set_sessions (delete x.(sid) s.(sessions)) s) s hit).
Proof.
  intros HP. revert s.
  induction hit as [|x hit IH]; intros s; cbn; [apply rb_refl|].
  eapply reach_by_trans; [|apply IH].
  apply rb_sessions; [exact HP|apply rb_refl].
Qed.

Lemma elem_of_filter_bool {A} (f : A -> bool) x l :
  x ∈ List.filter f l -> x ∈ l.
Proof.
  rewrite !list_elem_of_In. intros H. apply List.filter_In in H. tauto.
Qed.

Lemma terminated_by n o s :
  reach_by (input_perm n (Terminated o)) s (terminated o s).
Proof.
  unfold terminated.
  eapply reach_by_trans; [|apply foldl_delete_by; reflexivity].
  apply rb_armed; [reflexivity| |apply rb_refl].
  intros x Hx. left. eapply elem_of_filter_bool, Hx.
Qed.

Lemma foldl_settle_by P (l : list nat) s :
  (forall d, okP P (PEngine d) = true) ->
  Forall (fun d => d < next s) l ->
  reach_by P s (foldl (fun s d => settle (PEngine d) (Fulfilled true) s) s l).
Proof.
  intros HP. revert s.
  induction l as [|d l IH]; intros s Hl; cbn; [apply rb_refl|].
  apply Forall_cons in Hl as [Hd Hl].
  eapply reach_by_trans; [|apply IH; rewrite next_settle; assumption].
  apply rb_settle; [apply HP|exact Hd|apply rb_refl].
Qed.

Lemma dispatch_by i s :
  wf s -> reach_by (input_perm (next s) i) s (dispatch i s).
Proof.
  intros Hwf. destruct i; cbn [dispatch input_perm].
  - apply connect_call_by.
  - apply disconnect_call_by.
  - apply invite_call_by.
  - apply emit_event_by. apply Hwf.
  - eapply reach_by_trans;
      [|apply foldl_settle_by; [reflexivity|apply Hwf]].
    apply rb_engine_pending; [reflexivity| |apply rb_refl].
    intros x Hx. apply elem_of_nil in Hx. destruct Hx.
  - apply (terminated_by (next s)).
  - destruct (timers s) as [|[[q k] n] rest] eqn:E; [apply rb_refl|].
    pose proof (wf_timers _ Hwf) as Ht. rewrite E in Ht.
    apply Forall_cons in Ht as [Hq Ht]. unfold timer_below in Hq. cbn in Hq.
    eapply reach_by_trans; [|apply retry_attempt_by; exact Hq].
    apply rb_timers; [reflexivity| |apply rb_refl].
    intros x Hx. left. rewrite E. right. assumption.
Qed.

Lemma run_cont_by k o s :
  pnum (holds k) < next s -> reach_by (cont_perm k) s (run_cont k o s).
Proof.
  intros Hk.
  destruct k; cbn [run_cont holds pnum cont_perm] in *; unfold rethrow;
    try (destruct o);
    first [ apply connect_tail_by, Hk
          | apply connect_transport_by, Hk
          | apply disconnect_tail_by, Hk
          | apply disconnect_finish_by, Hk
          | apply invite_finish_by, Hk
          | apply handler_disconnected_by, Hk
          | apply handler_reconnected_by, Hk
          | apply reconnect_finish_by, Hk
          | apply retry_settled_by, Hk
          | apply retry_failed_by, Hk
          | apply rb_settle; [reflexivity|exact Hk|apply rb_refl] ].
Qed.

Lemma wf_pop k o rest s :
  wf s -> queue s = (k, o) :: rest ->
  wf (set_queue rest s) /\ pnum (holds k) < next s.
Proof.
  intros [Hs Hw Haw Hq Ht Hl Ha He Htr] E. rewrite E in Hq.
  apply Forall_cons in Hq as [Hk Hrest].
  split; [split; assumption|exact Hk].
Qed.

Lemma drain_wf fuel s : wf s -> wf (drain fuel s).
Proof.
  revert s. induction fuel as [|fuel IH]; intros s Hwf; cbn; [assumption|].
  destruct (queue s) as [|[k o] rest] eqn:E; [assumption|].
  destruct (wf_pop _ _ _ _ Hwf E) as [Hwf' Hk].
  apply IH. eapply reach_by_wf; [apply run_cont_by; exact Hk|exact Hwf'].
Qed.

Lemma wf_got i s : wf s -> wf (set_trace (trace s ++ [Got i]) s).
Proof.
  intros []. split; cbn; auto.
  rewrite actions_app. cbn. rewrite app_nil_r. assumption.
Qed.

Lemma step_wf fuel s i : wf s -> wf (step fuel s i).
Proof.
  intros Hwf. unfold step. apply drain_wf.
  eapply reach_by_wf; [apply dispatch_by|]; apply wf_got, Hwf.
Qed.



Lemma wf_fresh_client n : wf (fresh_client n).
Proof. split; constructor. Qed.

Lemma reachable_wf s : reachable s -> wf s.
Proof.
  induction 1; [apply wf_fresh_client|apply step_wf; assumption].
Qed.

Lemma run_cons fuel s i l : run fuel s (i :: l) = run fuel (step fuel s i) l.
Proof. reflexivity. Qed.

Lemma run_app fuel s l1 l2 :
  run fuel s (l1 ++ l2) = run fuel (run fuel s l1) l2.
Proof. apply foldl_app. Qed.

Lemma run_wf fuel s l : wf s -> wf (run fuel s l).
Proof.
  revert s. induction l as [|i l IH]; intros s Hwf; cbn; [assumption|].
  apply IH, step_wf, Hwf.
Qed.

Lemma reachable_run fuel s l : reachable s -> reachable (run fuel s l).
Proof.
  revert s. induction l as [|i l IH]; intros s Hs; cbn; [assumption|].
  apply IH. constructor. assumption.
Qed.

(** A promise with an identity not handed out yet is pending. *)
Lemma assoc_fresh p l n :
  Forall (fun x : pid * outcome => pnum x.1 < n) l -> n <= pnum p ->
  assoc p l = None.
Proof.
  induction 1 as [|[p' o] l Hx Hl IH]; intros Hp; cbn; [reflexivity|].
  destruct (pid_eqb p p') eqn:E; [|auto].
  apply pid_eqb_eq in E. subst. cbn in Hx. lia.
Qed.

Lemma pstate_fresh s p : wf s -> next s <= pnum p -> pstate s p = None.
Proof. intros Hwf. apply assoc_fresh, Hwf. Qed.

(** * The session registry *)

Lemma drain_quiescent fuel s : quiescent s -> drain fuel s = s.
Proof. unfold quiescent. intros H. destruct fuel; cbn; rewrite ?H; reflexivity. Qed.

Lemma session_free_frame P s s' :
  session_free P -> reach_by P s s' ->
  sessions s' = sessions s /\ armed s' = armed s /\
  count is_invite s' = count is_invite s.
Proof.
  intros (Hs & Ha & Hk) H. repeat split.
  - eapply reach_by_sessions; eassumption.
  - eapply reach_by_armed; eassumption.
  - eapply reach_by_count; eassumption.
Qed.

Lemma cont_perm_session_free k :
  is_invite k = false -> session_free (cont_perm k).
Proof.
  destruct k; cbn; intros Hk; try discriminate;
    (repeat split; intros [] Hi; cbn in *; try discriminate; reflexivity).
Qed.

Lemma input_perm_session_free n i :
  session_input i = false -> session_free (input_perm n i).
Proof.
  destruct i as [| | |e id| | |]; cbn; intros Hi; try discriminate;
    try destruct e; try discriminate;
    (repeat split; intros [] Hk; cbn in *; try discriminate; reflexivity).
Qed.

Lemma count_pop Q k o rest s :
  queue s = (k, o) :: rest ->
  count Q s = (if Q k then 1 else 0) + count Q (set_queue rest s).
Proof.
  intros E. unfold count, conts. cbn. rewrite E. cbn.
  rewrite !List.filter_app, !length_app. cbn.
  destruct (Q k); cbn; lia.
Qed.

Lemma drain_sessions fuel s :
  wf s -> count is_invite s = 0 ->
  sessions (drain fuel s) = sessions s /\ armed (drain fuel s) = armed s /\
  count is_invite (drain fuel s) = 0.
Proof.
  revert s. induction fuel as [|fuel IH]; intros s Hwf Hc; cbn; [auto|].
  destruct (queue s) as [|[k o] rest] eqn:E; [auto|].
  destruct (wf_pop _ _ _ _ Hwf E) as [Hwf' Hk].
  rewrite (count_pop _ _ _ _ _ E) in Hc.
  destruct (is_invite k) eqn:Hi; [discriminate Hc|].
  change (count is_invite (set_queue rest s) = 0) in Hc.
  pose proof (run_cont_by k o (set_queue rest s) Hk) as Hr.
  destruct (session_free_frame _ _ _ (cont_perm_session_free k Hi) Hr)
    as (Hs & Ha & Hn).
  destruct (IH (run_cont k o (set_queue rest s))) as (Hs' & Ha' & Hn').
  - eapply reach_by_wf; eassumption.
  - lia.
  - rewrite Hs', Ha', Hs, Ha. auto.
Qed.

Lemma step_sessions fuel s i :
  wf s -> count is_invite s = 0 -> session_input i = false ->
  sessions (step fuel s i) = sessions s /\ armed (step fuel s i) = armed s /\
  count is_invite (step fuel s i) = 0.
Proof.
  intros Hwf Hc Hi. unfold step.
  set (s0 := set_trace _ s).
  assert (Hwf0 : wf s0) by apply wf_got, Hwf.
  pose proof (dispatch_by i s0 Hwf0) as Hr.
  destruct (session_free_frame _ _ _ (input_perm_session_free _ i Hi) Hr)
    as (Hs & Ha & Hn).
  destruct (drain_sessions fuel (dispatch i s0)) as (Hs' & Ha' & Hn').
  - eapply reach_by_wf; eassumption.
  - rewrite Hn. exact Hc.
  - rewrite Hs', Ha', Hs, Ha. auto.
Qed.

Lemma run_sessions fuel s l :
  wf s -> count is_invite s = 0 ->
  Forall (fun i => session_input i = false) l ->
  sessions (run fuel s l) = sessions s /\ armed (run fuel s l) = armed s.
Proof.
  revert s. induction l as [|i l IH]; intros s Hwf Hc Hl; [auto|].
  rewrite run_cons.
  apply Forall_cons in Hl as [Hi Hl].
  destruct (step_sessions fuel s i Hwf Hc Hi) as (Hs & Ha & Hn).
  destruct (IH (step fuel s i)) as (Hs' & Ha'); auto using step_wf.
  rewrite Hs', Ha'. auto.
Qed.

(** C10: disconnect() leaves the session registry alone.  The code of
    disconnect() up to its first [await] changes neither the registry
    nor the armed termination listeners; and from any reachable state
    with no invite() in progress, no sequence of connect() and
    disconnect() calls, engine events other than 'invite', and timers
    (so: a disconnect() from its call to its completion, under every
    interleaving of those) changes the registry or ends a session. *)
Theorem disconnect_keeps_sessions (fuel : nat) (s : state) (l : list input) :
  reachable s ->
  count is_invite s = 0 ->
  Forall (fun i => session_input i = false) l ->
  sessions (disconnect_call s).2 = sessions s /\
  armed (disconnect_call s).2 = armed s /\
  sessions (run fuel s l) = sessions s /\
  armed (run fuel s l) = armed s.
Proof.
  intros Hs Hc Hl.
  split; [|split].
  - eapply reach_by_sessions; [|apply disconnect_call_by]. reflexivity.
  - eapply reach_by_armed; [|apply disconnect_call_by]. reflexivity.
  - apply run_sessions; auto using reachable_wf.
Qed.

Lemma disconnect_keeps_sessions_witness :
  let s := run 20 init inbound_call in
  quiescent (run 20 s full_disconnect) /\
  pstate (run 20 s full_disconnect) (PDisconnect 5) = Some (Fulfilled true) /\
  sessions s !! "call-1" = Some (Session 4 "call-1" true) /\
  sessions (run 20 s full_disconnect) = sessions s /\
  armed (run 20 s full_disconnect) = armed s.
Proof.
  cbv zeta.
  split; [vm_compute; reflexivity|].
  split; [vm_compute; reflexivity|].
  split; [vm_compute; reflexivity|].
  apply (disconnect_keeps_sessions 20 (run 20 init inbound_call) full_disconnect).
  - apply reachable_run, reach_fresh.
  - vm_compute. reflexivity.
  - repeat constructor.
Defined.

(** ** Termination *)



Lemma filter_none_id {A} (f : A -> bool) (l : list A) :
  (forall x, x ∈ l -> f x = true) -> List.filter f l = l.
Proof.
  induction l as [|x l IH]; intros H; cbn; [reflexivity|].
  rewrite (H x) by left. rewrite IH; [reflexivity|].
  intros y Hy. apply H. right. exact Hy.
Qed.

Lemma filter_nothing {A} (f : A -> bool) (l : list A) :
  (forall x, x ∈ l -> f x = false) -> List.filter f l = [].
Proof.
  induction l as [|x l IH]; intros H; cbn; [reflexivity|].
  rewrite (H x) by left. apply IH.
  intros y Hy. apply H. right. exact Hy.
Qed.













(** * The calls *)

(** Fields of a state built with the setters. *)
Ltac fields :=
  cbn [ua transportConnectedPromise unregisteredPromise registeredPromise
       disconnectPromise registered isReconnecting retries sessions
       listeners armed settled waiting queue timers engine_pending next
       trace emit add_listener enqueue set_ua
       set_transportConnectedPromise set_unregisteredPromise
       set_registeredPromise set_registered set_isReconnecting
       set_sessions set_listeners set_armed set_settled set_waiting
       set_queue set_timers set_engine_pending set_next set_trace
       fst snd] in *.

Lemma waits_on_invite r k : waits_on (PInvite r) k = false.
Proof. destruct k as [| ? []| | | | | | | | | |]; reflexivity. Qed.


(** A promise nobody waits for settles without queueing anything. *)
Lemma settle_unawaited p o s :
  pstate s p = None ->
  (forall k, k ∈ waiting s -> waits_on p k = false) ->
  settle p o s = set_settled ((p, o) :: settled s) s.
Proof.
  intros Hp Hw. unfold settle. rewrite Hp.
  rewrite (filter_nothing (waits_on p)) by exact Hw.
  rewrite (filter_none_id (fun k => negb (waits_on p k))).
  - cbn. rewrite app_nil_r. destruct s; reflexivity.
  - intros k Hk. rewrite (Hw k Hk). reflexivity.
Qed.

Lemma await_pending k p s :
  awaited k = Some p -> pstate s p = None ->
  await k s = set_waiting (waiting s ++ [k]) s.
Proof. intros Hk Hp. unfold await. rewrite Hk, Hp. reflexivity. Qed.

Lemma await_settled k p o s :
  awaited k = Some p -> pstate s p = Some o -> await k s = enqueue k o s.
Proof. intros Hk Hp. unfold await. rewrite Hk, Hp. reflexivity. Qed.

Lemma drain_S fuel s k o rest :
  queue s = (k, o) :: rest ->
  drain (S fuel) s = drain fuel (run_cont k o (set_queue rest s)).
Proof. intros E. cbn. rewrite E. reflexivity. Qed.

Lemma commands_app t1 t2 : commands (t1 ++ t2) = commands t1 ++ commands t2.
Proof. unfold commands. rewrite actions_app. apply List.filter_app. Qed.

(** ** invite() *)

(** C6, the claim as stated, fails: with a registration in flight,
    invite() is not rejected; it stays pending, parked on the
    registration future, and creates its session once the registration
    completes. *)
Lemma invite_in_flight_waits :
  let s := registration_in_flight in
  let s' := step 20 s (CallInvite "100" "call-1") in
  s.(registeredPromise) = Some 3 /\ s.(registered) = false /\
  pstate s (PRegistered 3) = None /\
  pstate s' (PInvite 4) = None /\
  s'.(waiting) = s.(waiting) ++ [KInviteRegistered 4 3 "100" "call-1"] /\
  pstate (run 20 s' registration_completes) (PInvite 4)
    = Some (Fulfilled true) /\
  (run 20 s' registration_completes).(sessions) !! "call-1"
    = Some (Session 5 "call-1" false).
Proof. repeat split; vm_compute; reflexivity. Qed.

(** C6, as the code has it: invite() fails with 'Register first!'
    exactly when no registration future exists (no connect() was
    issued, or a disconnect() has cleared it).  With a registration
    future it waits for it: while the registration is in flight the
    call stays pending and creates nothing; when the registration has
    completed (or completes) it creates the session and registers it
    under its id; when the registration was rejected it fails with the
    registration's error. *)
Theorem invite_awaits_registration (fuel : nat) (s : state)
    (phone id : string) :
  reachable s -> quiescent s ->
  let s' := step (S fuel) s (CallInvite phone id) in
  let r := PInvite s.(next) in
  match s.(registeredPromise) with
  | None =>
      pstate s' r = Some (Rejected ERegisterFirst) /\
      sessions s' = sessions s
  | Some p =>
      match pstate s (PRegistered p) with
      | None =>
          pstate s' r = None /\ sessions s' = sessions s /\
          waiting s' = waiting s ++ [KInviteRegistered s.(next) p phone id]
      | Some (Rejected e) =>
          pstate s' r = Some (Rejected e) /\ sessions s' = sessions s
      | Some (Fulfilled _) =>
          match s.(ua) with
          | None => pstate s' r = Some (Rejected ETypeError)
          | Some _ =>
              pstate s' r = Some (Fulfilled true) /\
              sessions s' =
                <[id := Session (S s.(next)) id false]> (sessions s)
          end
      end
  end.
Proof.
  intros Hs Hq. pose proof (reachable_wf _ Hs) as Hwf. cbv zeta.
  assert (Hfresh : forall t n, assoc (PInvite (next s))
            (settled (set_next n (set_trace t s))) = None).
  { intros. apply (pstate_fresh s); [exact Hwf|cbn; lia]. }
  unfold step, dispatch, invite_call. cbv beta iota zeta delta [fresh].
  cbn [registeredPromise set_next set_trace next].
  destruct (registeredPromise s) as [p|] eqn:Hp; cbn [snd].
  - destruct (pstate s (PRegistered p)) as [o|] eqn:Ho.
    + erewrite await_settled; [|reflexivity|exact Ho].
      erewrite drain_S;
        [|unfold enqueue; cbn; rewrite Hq; reflexivity].
      cbn [run_cont]. unfold rethrow. destruct o as [v|e].
      * unfold invite_finish. cbn [ua set_queue enqueue set_next set_trace].
        destruct (ua s) eqn:Hu.
        -- cbv beta iota zeta delta [fresh].
           rewrite settle_unawaited;
             [|apply Hfresh|intros; apply waits_on_invite].
           rewrite drain_quiescent by reflexivity.
           split; [|reflexivity].
           unfold pstate. cbn. rewrite Nat.eqb_refl. reflexivity.
        -- rewrite settle_unawaited;
             [|apply Hfresh|intros; apply waits_on_invite].
           rewrite drain_quiescent by reflexivity.
           unfold pstate. cbn. rewrite Nat.eqb_refl. reflexivity.
      * rewrite settle_unawaited;
          [|apply Hfresh|intros; apply waits_on_invite].
        rewrite drain_quiescent by reflexivity.
        split; [|reflexivity].
        unfold pstate. cbn. rewrite Nat.eqb_refl. reflexivity.
    + erewrite await_pending; [|reflexivity|exact Ho].
      rewrite drain_quiescent by exact Hq.
      split; [apply Hfresh|split; reflexivity].
  - rewrite settle_unawaited;
      [|apply Hfresh|intros; apply waits_on_invite].
    rewrite drain_quiescent by exact Hq.
    split; [|reflexivity].
    unfold pstate. cbn. rewrite Nat.eqb_refl. reflexivity.
Qed.

Lemma invite_awaits_registration_witness :
  pstate (step 20 init (CallInvite "100" "call-1")) (PInvite 0)
    = Some (Rejected ERegisterFirst) /\
  sessions (step 20 init (CallInvite "100" "call-1")) = sessions init.
Proof.
  apply (invite_awaits_registration 19 init "100" "call-1").
  - apply reach_fresh.
  - reflexivity.
Defined.

(** ** disconnect() *)

Lemma drain_constants fuel s :
  wf s ->
  disconnectPromise (drain fuel s) = disconnectPromise s /\
  retries (drain fuel s) = retries s.
Proof.
  revert s. induction fuel as [|fuel IH]; intros s Hwf; cbn; [auto|].
  destruct (queue s) as [|[k o] rest] eqn:E; [auto|].
  destruct (wf_pop _ _ _ _ Hwf E) as [Hwf' Hk].
  pose proof (run_cont_by k o (set_queue rest s) Hk) as Hr.
  destruct (reach_by_constants _ _ _ Hr) as [Hd Hn].
  destruct (IH (run_cont k o (set_queue rest s))) as [Hd' Hn'].
  - eapply reach_by_wf; eassumption.
  - rewrite Hd', Hn', Hd, Hn. auto.
Qed.

Lemma step_constants fuel s i :
  wf s ->
  disconnectPromise (step fuel s i) = disconnectPromise s /\
  retries (step fuel s i) = retries s.
Proof.
  intros Hwf. unfold step.
  assert (Hwf0 : wf (set_trace (trace s ++ [Got i]) s)) by apply wf_got, Hwf.
  pose proof (dispatch_by i _ Hwf0) as Hr.
  destruct (reach_by_constants _ _ _ Hr) as [Hd Hn].
  destruct (drain_constants fuel (dispatch i (set_trace (trace s ++ [Got i]) s)))
    as [Hd' Hn'].
  - eapply reach_by_wf; eassumption.
  - rewrite Hd', Hn', Hd, Hn. auto.
Qed.


(** C5: two overlapping disconnect() calls.  The second call does not
    get the future of the first one: it runs a teardown of its own
    (the engine is told to unregister twice and to disconnect twice),
    and ends up rejected, with a TypeError, where the first call is
    fulfilled. *)
Theorem overlapping_disconnects_run_twice :
  let s := run 20 init overlapping_disconnects in
  commands s.(trace)
    = [UaStart; UaRegister; UaUnregister 4; UaUnregister 6;
       UaDisconnect 4; UaDisconnect 6] /\
  pstate s (PDisconnect 4) = Some (Fulfilled true) /\
  pstate s (PDisconnect 6) = Some (Rejected ETypeError) /\
  s.(disconnectPromise) = None /\
  quiescent s.
Proof. repeat split; vm_compute; reflexivity. Qed.

(** ** connect() *)

(** C8: connect() during an unregistration.  The call writes the
    diagnostic to the console and parks itself on the unregistration
    future; it issues no command to the engine, settles no promise (its
    own included: nothing is raised), and leaves the registration
    future alone.  The parked code is the rest of connect(), from the
    check of the registration future on: it runs only once the
    unregistration has settled. *)
Theorem connect_waits_for_unregistration (fuel : nat) (s : state) (q : nat) :
  reachable s -> quiescent s ->
  s.(unregisteredPromise) = Some q -> pstate s (PUnregistered q) = None ->
  let s' := step fuel s CallConnect in
  commands s'.(trace) = commands s.(trace) /\
  last (actions s'.(trace))
    = Some (ConsoleError MCannotConnectWhileUnregistering) /\
  settled s' = settled s /\
  waiting s' = waiting s ++ [KConnectUnregistered s.(next) q] /\
  awaited (KConnectUnregistered s.(next) q) = Some (PUnregistered q) /\
  quiescent s' /\
  registeredPromise s' = registeredPromise s /\
  forall v s2, run_cont (KConnectUnregistered s.(next) q) (Fulfilled v) s2
               = connect_tail s.(next) s2.
Proof.
  intros Hs Hq Hu Hp. cbv zeta.
  unfold step, dispatch, connect_call. cbv beta iota zeta delta [fresh].
  fields.
  destruct (ua s) eqn:Hua.
  - fields. rewrite Hu. fields.
    erewrite await_pending; [|reflexivity|exact Hp].
    rewrite drain_quiescent by exact Hq.
    fields. rewrite !commands_app, !actions_app. cbn [actions].
    rewrite ?app_nil_r, ?app_assoc, last_snoc.
    repeat split; try reflexivity; try exact Hq;
      cbn; rewrite ?app_nil_r; reflexivity.
  - unfold configureUA. cbv beta iota zeta delta [fresh].
    fields. rewrite Hu. fields.
    erewrite await_pending; [|reflexivity|exact Hp].
    rewrite drain_quiescent by exact Hq.
    fields. rewrite !commands_app, !actions_app. cbn [actions].
    rewrite ?app_nil_r, ?app_assoc, last_snoc.
    repeat split; try reflexivity; try exact Hq;
      cbn; rewrite ?app_nil_r; reflexivity.
Qed.

Lemma connect_waits_for_unregistration_witness :
  let s := unregistration_in_flight in
  let s' := step 20 s CallConnect in
  commands s'.(trace) = commands s.(trace) /\
  settled s' = settled s /\
  waiting s' = waiting s ++ [KConnectUnregistered 6 5].
Proof.
  cbv zeta.
  destruct (connect_waits_for_unregistration 20 unregistration_in_flight 5)
    as (H1 & _ & H3 & H4 & _).
  - apply reachable_run, reach_fresh.
  - vm_compute. reflexivity.
  - vm_compute. reflexivity.
  - vm_compute. reflexivity.
  - split; [exact H1|]. split; [exact H3|exact H4].
Defined.






(** * The order of a teardown *)





Lemma ordered_inv_ext s s' :
  trace s' = trace s -> queue s' = queue s -> waiting s' = waiting s ->
  ordered_inv s -> ordered_inv s'.
Proof. intros Et Eq Ew [Ht Hq Hw]. split; rewrite ?Et, ?Eq, ?Ew; auto. Qed.









(** ** disconnect() *)





(** ** Engine events *)

Lemma once_listeners_ordered h s :
  ordered_inv s ->
  ordered_inv (if is_once h
               then set_listeners (remove_first h (listeners s)) s else s).
Proof.
  intros Hinv. destruct (is_once h); [|exact Hinv].
  eapply ordered_inv_ext; [| | |exact Hinv]; reflexivity.
Qed.









(** ** A disconnect() that does not unregister *)









(** ** A disconnect() of a registered client *)




(** * Reconnect supervision *)








Lemma count_pop_sub Q k o rest s :
  queue s = (k, o) :: rest ->
  count Q (set_queue rest s) = count Q s - (if Q k then 1 else 0).
Proof. intros E. rewrite (count_pop Q k o rest s E). lia. Qed.





(** ** The effect of the primitives on the supervision *)











(** ** reconnect() *)












(** * Reconnecting when every attempt fails *)

(** ** Running the machine on a state given by its fields *)

Lemma settle_pending p o s :
  pstate s p = None ->
  settle p o s
  = set_settled ((p, o) :: settled s)
      (set_waiting (List.filter (fun k => negb (waits_on p k)) (waiting s))
        (set_queue
           (queue s ++ map (fun k => (k, o)) (List.filter (waits_on p) (waiting s)))
           s)).
Proof. intros Hp. unfold settle. rewrite Hp. reflexivity. Qed.

Lemma settle_settled p o o' s : pstate s p = Some o' -> settle p o s = s.
Proof. intros Hp. unfold settle. rewrite Hp. reflexivity. Qed.

Lemma await_at_once k s :
  awaited k = None -> await k s = enqueue k (Fulfilled true) s.
Proof. intros Hk. unfold await. rewrite Hk. reflexivity. Qed.

Ltac eqb_simpl :=
  repeat match goal with
         | |- context [Nat.eqb ?a ?a] => rewrite (Nat.eqb_refl a)
         | |- context [Nat.eqb ?a ?b] =>
             rewrite (proj2 (Nat.eqb_neq a b)) by lia
         end.

Ltac explicit s :=
  lazymatch s with
  | State _ _ _ _ _ _ _ _ _ _ _ _ _ _ _ _ _ _ => idtac
  end.

(** The code between two awaits, on explicit states. *)
Ltac code :=
  cbv [retry_attempt connect_call configureUA connect_tail connect_transport
       disconnect_tail disconnect_call disconnect_finish retry_settled
       retry_failed reconnect_finish handler_start handler_disconnected
       handler_reconnected rethrow run_cont classify fire emit_event
       event_eqb event_of is_once remove_first handler_eqb dispatch
       emit fresh add_listener enqueue
       ua transportConnectedPromise unregisteredPromise registeredPromise
       disconnectPromise registered isReconnecting retries sessions
       listeners armed settled waiting queue timers engine_pending next
       trace set_ua set_transportConnectedPromise set_unregisteredPromise
       set_registeredPromise set_registered set_isReconnecting
       set_sessions set_listeners set_armed set_settled set_waiting
       set_queue set_timers set_engine_pending set_next set_trace
       foldl List.filter map waits_on awaited pid_eqb negb fst snd];
  cbn [app].

Ltac pending :=
  unfold pstate; cbn [settled assoc pid_eqb]; eqb_simpl;
  cbn [assoc pid_eqb];
  first [ reflexivity | eassumption
        | match goal with
          | H : forall p, _ <= pnum p -> assoc p _ = None |- _ =>
              apply H; cbn [pnum]; lia
          end ].

(** One await, one settlement or one micro-task. *)
Ltac advance :=
  match goal with
  | |- context [await ?k ?s] =>
      explicit s;
      first [ rewrite (await_at_once k s eq_refl)
            | rewrite (await_pending k _ s eq_refl) by pending
            | erewrite (await_settled k _ _ s eq_refl) by pending ]
  | |- context [settle ?p ?o ?s] =>
      explicit s;
      first [ rewrite (settle_pending p o s) by pending
            | erewrite (settle_settled p o _ s) by pending ]
  | |- context [step ?f ?s ?i] =>
      explicit s;
      change (step f s i)
        with (drain f (dispatch i (set_trace (trace s ++ [Got i]) s)))
  | |- context [drain ?f ?s] =>
      explicit s;
      first [ rewrite (drain_quiescent f s) by reflexivity
            | erewrite (drain_S _ s) by (cbn [queue]; reflexivity) ]
  end; code; eqb_simpl; code.

Ltac fuel8 f :=
  change (8 + f) with (S (S (S (S (S (S (S (S f)))))))).

Lemma timer_starts_attempt n k N q r t0 t sess arm done tr f :
  (forall p, N <= pnum p -> assoc p done = None) ->
  step (8 + f) (backoff_state n k N q r t0 t sess arm done tr) Timer
  = attempt_state n (S k) (4 + N) q r t0 N sess arm done
      (tr ++ [Got Timer; Do (ConsoleLog MConfiguringUa); Do (NewUA (S N));
              Do UaStart]).
Proof.
  intros Hfresh.
  unfold backoff_state, attempt_state, step. fuel8 f. code.
  repeat advance.
  rewrite <- !app_assoc. reflexivity.
Qed.

Lemma attempt_fails_retry n k N q r t0 sess arm done tr f :
  (forall p, N <= pnum p -> assoc p done = None) ->
  assoc (PRetry q) done = None ->
  k <= n ->
  run (8 + f) (attempt_state n k (4 + N) q r t0 N sess arm done tr)
      failed_attempt
  = backoff_state n k (6 + N) q r t0 (S (S N)) sess arm
      ((PConnect N, Rejected (ETriedToConnect (n + 1)))
       :: (PTransport (S (S N)), Rejected EEngine)
       :: (PDisconnect (4 + N), Fulfilled true)
       :: (PEngine (5 + N), Fulfilled true) :: done)
      (tr ++ [Got (ev EvTransportCreated);
              Do (ConsoleLog MTransportCreated);
              Got (ev EvDisconnected);
              Do (ConsoleLog MUnexpectedDisconnect);
              Do (ConsoleLog MUnregistered);
              Do (UaDisconnect (4 + N));
              Got UaDisconnected;
              Do (ConsoleLog MDisconnected);
              Do (ConsoleLog (MAttemptFailed k (n - (k - 1))));
              Do SetTimeout]).
Proof.
  intros Hfresh Hq Hk.
  unfold backoff_state, attempt_state, failed_attempt, ev.
  rewrite !run_cons. fuel8 f. cbn [run foldl Nat.add].
  repeat advance.
  rewrite (leb_correct k n Hk).
  repeat advance.
  rewrite <- !app_assoc. reflexivity.
Qed.

(** ** Observations on a growing trace *)

Lemma starts_app t1 t2 : starts (t1 ++ t2) = starts t1 + starts t2.
Proof.
  unfold starts. rewrite actions_app, List.filter_app, length_app.
  reflexivity.
Qed.

Lemma reports_app l1 l2 : reports (l1 ++ l2) = reports l1 ++ reports l2.
Proof.
  induction l1 as [|a l1 IH]; [reflexivity|].
  destruct a as [[]| | | | | | | | | |]; cbn; rewrite ?IH; reflexivity.
Qed.


Lemma fresh_done (N : nat) (done : list (pid * outcome)) :
  Forall (fun x : pid * outcome => pnum x.1 < N) done ->
  forall p, N <= pnum p -> assoc p done = None.
Proof. intros Hd p Hp. eapply assoc_fresh; eassumption. Qed.

(** ** All the attempts *)


(** Up to the first back-off: registration, the loss of the transport,
    and the first attempt of reconnect(), which fails. *)
Lemma first_attempt_fails m f :
  exists done tr o0,
    run (8 + f) (fresh_client (S m))
        (bring_up ++ transport_loss ++ failed_attempt)
    = backoff_state (S m) 1 15 8 7 2 11 ∅ [] done tr /\
    Forall (fun x : pid * outcome => pnum x.1 < 15) done /\
    assoc (PRetry 8) done = None /\ assoc (PReconnect 7) done = None /\
    assoc (PTransport 2) done = Some o0 /\
    starts (since_loss tr) = 1 /\
    reports (actions (since_loss tr)) = [(1, S m)] /\
    (forall ext, since_loss (tr ++ ext) = since_loss tr ++ ext).
Proof.
  eexists _, _, _. split.
  - unfold backoff_state. fuel8 f. lazy. reflexivity.
  - repeat split. repeat (constructor; [cbn; lia|]). constructor.
Qed.


(** ** After the last attempt *)





(** ** The number of attempts *)




(** * Reconnecting when an attempt succeeds *)

Lemma attempt_succeeds n k N q r t0 sess arm done tr f o0 :
  (forall p, N <= pnum p -> assoc p done = None) ->
  assoc (PRetry q) done = None -> assoc (PReconnect r) done = None ->
  assoc (PTransport t0) done = Some o0 ->
  run (8 + f) (attempt_state n k (4 + N) q r t0 N sess arm done tr)
      successful_attempt
  = reconnected_state n (4 + N) N sess arm
      ((PReconnect r, Fulfilled true)
       :: (PRetry q, Fulfilled true)
       :: (PConnect N, Fulfilled true)
       :: (PRegistered (S (S (S N))), Fulfilled true)
       :: (PTransport (S (S N)), Fulfilled true) :: done)
      (tr ++ [Got (ev EvTransportCreated);
              Do (ConsoleLog MTransportCreated);
              Got (ev EvConnected);
              Do (ConsoleLog MConnected);
              Do UaRegister;
              Got (ev EvRegistered)]).
Proof.
  intros Hfresh Hq Hr Ht0.
  assert (Hold : t0 < N).
  { destruct (le_lt_dec N t0) as [Hle|]; [|assumption].
    rewrite (Hfresh (PTransport t0) Hle) in Ht0. discriminate. }
  unfold attempt_state, reconnected_state, successful_attempt, ev.
  rewrite !run_cons. fuel8 f. cbn [run foldl Nat.add].
  repeat advance.
  rewrite <- !app_assoc. reflexivity.
Qed.

(** From a back-off on: [m] more attempts fail, the next one
    succeeds. *)
Lemma backoff_until_success n q r t0 sess arm f m :
  forall k N t done tr o0,
  k + m <= n ->
  Forall (fun x : pid * outcome => pnum x.1 < N) done ->
  assoc (PRetry q) done = None -> assoc (PReconnect r) done = None ->
  assoc (PTransport t0) done = Some o0 ->
  exists N' c done' ext,
    run (8 + f) (backoff_state n k N q r t0 t sess arm done tr)
        ([Timer] ++ fail_then_succeed m)
    = reconnected_state n N' c sess arm done' (tr ++ ext) /\
    assoc (PRegistered (S (S (S c)))) done' = Some (Fulfilled true) /\
    starts ext = S m /\
    reports (actions ext) = map (fun j => (j, n - (j - 1))) (seq (S k) m) /\
    last (commands ext) = Some UaRegister.
Proof.
  induction m as [|m IH]; intros k N t done tr o0 Hkm Hdone Hq Hr Ht0;
    pose proof (fresh_done N done Hdone) as Hfresh;
    rewrite run_app; cbn [run foldl];
    rewrite (timer_starts_attempt n k N q r t0 t sess arm done tr f Hfresh);
    cbn [fail_then_succeed].
  - rewrite (attempt_succeeds n (S k) N q r t0 sess arm done _ f o0
               Hfresh Hq Hr Ht0).
    rewrite <- app_assoc.
    eexists _, _, _, _. split; [reflexivity|].
    repeat split. cbn [assoc pid_eqb]. rewrite Nat.eqb_refl. reflexivity.
  - rewrite run_app.
    rewrite (attempt_fails_retry n (S k) N q r t0 sess arm done _ f
               Hfresh Hq) by lia.
    assert (Hold : t0 < N).
    { destruct (le_lt_dec N t0) as [Hle|]; [|assumption].
      rewrite (Hfresh (PTransport t0) Hle) in Ht0. discriminate. }
    edestruct (IH (S k) (6 + N) (S (S N)))
      as (N' & c & done' & ext & E & Hp & Hs & Hrep & Hl);
      [| | | | | rewrite E; clear E IH].
    + lia.
    + repeat (constructor; [cbn; lia|]).
      eapply Forall_impl; [exact Hdone|]. cbn. intros; lia.
    + cbn [assoc pid_eqb]. exact Hq.
    + cbn [assoc pid_eqb]. exact Hr.
    + cbn [assoc pid_eqb].
      rewrite (proj2 (Nat.eqb_neq t0 (S (S N)))) by lia. exact Ht0.
    + rewrite <- !app_assoc.
      eexists _, _, _, _. split; [reflexivity|].
      rewrite !starts_app, !actions_app, !reports_app, !commands_app,
        Hs, Hrep, !last_app, Hl.
      repeat split. exact Hp.
Qed.

(** The first attempt succeeds. *)
Lemma first_attempt_succeeds n f :
  exists N c done tr,
    reconnect_succeeds (8 + f) n 0 = reconnected_state n N c ∅ [] done tr /\
    assoc (PRegistered (S (S (S c)))) done = Some (Fulfilled true) /\
    starts (since_loss tr) = 1 /\
    reports (actions (since_loss tr)) = [] /\
    last (commands tr) = Some UaRegister.
Proof.
  eexists _, _, _, _. split.
  - unfold reconnected_state, reconnect_succeeds. fuel8 f. lazy. reflexivity.
  - repeat split.
Qed.

(** X1: a reconnect that succeeds.  A client with retry limit [n]
    registers and loses its transport; [k] reconnect attempts fail,
    with [k <= n], and the next one succeeds.  Then the client is
    registered again on a registration future that is fulfilled, it is
    no longer reconnecting, it has made [k + 1] attempts and reported
    the [k] failures with their attempt numbers and retries left, the
    last command to the engine is the registration, and nothing is
    left waiting: no continuation, no timer, no micro-task. *)
Theorem reconnect_succeeds_after_failures n k fuel :
  8 <= fuel -> k <= n ->
  let s := reconnect_succeeds fuel n k in
  registered s = true /\ isReconnecting s = false /\
  (exists p, registeredPromise s = Some p /\
             pstate s (PRegistered p) = Some (Fulfilled true)) /\
  attempts s = k + 1 /\
  reports (actions (since_loss (trace s))) = failure_reports n k /\
  last (commands (trace s)) = Some UaRegister /\
  timers s = [] /\ waiting s = [] /\ quiescent s.
Proof.
  intros Hfuel Hk. replace fuel with (8 + (fuel - 8)) by lia.
  generalize (fuel - 8). clear fuel Hfuel. intros f. cbn zeta.
  assert (E : exists N c sess arm done tr,
             reconnect_succeeds (8 + f) n k
             = reconnected_state n N c sess arm done tr /\
             assoc (PRegistered (S (S (S c)))) done = Some (Fulfilled true) /\
             starts (since_loss tr) = k + 1 /\
             reports (actions (since_loss tr)) = failure_reports n k /\
             last (commands tr) = Some UaRegister).
  { destruct k as [|k].
    - destruct (first_attempt_succeeds n f)
        as (N & c & done & tr & E & Hp & Hs & Hr & Hlast).
      exists N, c, ∅, [], done, tr. auto.
    - destruct n as [|m]; [lia|].
      unfold reconnect_succeeds. cbn [fail_then_succeed].
      rewrite !app_assoc, <- (app_assoc _ [Timer]), run_app, <- !app_assoc.
      destruct (first_attempt_fails m f)
        as (done & tr & o0 & -> & Hdone & Hq & Hr & Ht0 & Hs & Hrep & Hsince).
      destruct (backoff_until_success (S m) 8 7 2 ∅ [] f k 1 15 11 done tr o0
                  ltac:(lia) Hdone Hq Hr Ht0)
        as (N' & c & done' & ext & -> & Hp & Hs' & Hrep' & Hlast).
      exists N', c, ∅, [], done', (tr ++ ext).
      split; [reflexivity|]. split; [exact Hp|].
      rewrite Hsince, starts_app, actions_app, reports_app, commands_app,
        Hs, Hs', Hrep, Hrep'.
      rewrite last_app, Hlast.
      unfold failure_reports. cbn [seq map].
      repeat split; lia. }
  destruct E as (N & c & sess & arm & done & tr & -> & Hp & Hs & Hrep & Hlast).
  unfold attempts, quiescent, pstate. cbn [reconnected_state registered
    isReconnecting registeredPromise settled trace timers waiting queue].
  repeat split; try assumption. eexists. split; [reflexivity|exact Hp].
Qed.

Lemma reconnect_succeeds_after_failures_witness :
  8 <= 20 /\ 2 <= 3 /\
  let s := reconnect_succeeds 20 3 2 in
  registered s = true /\ isReconnecting s = false /\
  (exists p, registeredPromise s = Some p /\
             pstate s (PRegistered p) = Some (Fulfilled true)) /\
  attempts s = 2 + 1 /\
  reports (actions (since_loss (trace s))) = failure_reports 3 2 /\
  last (commands (trace s)) = Some UaRegister /\
  timers s = [] /\ waiting s = [] /\ quiescent s.
Proof.
  split; [lia|]. split; [lia|].
  apply (reconnect_succeeds_after_failures 3 2 20); lia.
Defined.

(** * The fields no method assigns, and the engine options *)

Lemma run_constants fuel l : forall s,
  wf s ->
  disconnectPromise (run fuel s l) = disconnectPromise s /\
  retries (run fuel s l) = retries s.
Proof.
  induction l as [|i l IH]; intros s Hwf; [auto|].
  rewrite run_cons.
  destruct (step_constants fuel s i Hwf) as [Hd Hn].
  destruct (IH (step fuel s i) (step_wf fuel s i Hwf)) as [Hd' Hn'].
  rewrite Hd', Hn', Hd, Hn. auto.
Qed.

(** X2: no method assigns [retries] or [disconnectPromise].  Whatever
    calls, engine events and timers a newly constructed client sees,
    its retry limit is 10 and its [disconnectPromise] is unset: the
    guard of line 112 never fires. *)
Theorem retries_and_disconnectPromise_never_assigned fuel l :
  retries (run fuel init l) = 10 /\
  disconnectPromise (run fuel init l) = None.
Proof.
  destruct (run_constants fuel l init (wf_fresh_client 10)) as [Hd Hn].
  rewrite Hd, Hn. auto.
Qed.

(** X3: what [configure] hands to the engine.  When [configure]
    succeeds, the credentials, the signalling server and the media
    elements are the members of the caller's account, transport and
    options, the ICE servers are the caller's, in their order, each
    wrapped as the [urls] of an entry, and the remaining options are
    the defaults of the class whatever the caller passed: the engine
    neither starts nor registers nor reconnects on its own. *)
Theorem configure_engine_options (options : jsval) (o : ua_options) :
  configure options = inr o ->
  authorizationUser o = field (field options "account") "user" /\
  password o = field (field options "account") "password" /\
  uri o = field (field options "account") "uri" /\
  wsServers o = field (field options "transport") "wsServers" /\
  media o = field options "media" /\
  (exists l, field (field options "transport") "iceServers" = JArray l /\
             iceServers o = map (fun s => JObject [("urls", s)]) l /\
             length (iceServers o) = length l) /\
  autostart o = false /\ autostop o = false /\ register o = false /\
  maxReconnectionAttempts o = 0 /\ traceSip o = true /\
  noAnswerTimeout o = 60 /\ registerOptions_expires o = 3600 /\
  log_builtinEnabled o = true /\ log_level o = "warn" /\
  userAgentString o = "vialer-calling-lib".
Proof.
  unfold configure, field.
  destruct (member options "account") as [account|]; [|discriminate].
  destruct (member options "transport") as [transport|]; [|discriminate].
  destruct (member options "media") as [m|]; [|discriminate].
  cbn [default from_option id].
  destruct (member account "user") as [user|]; [|discriminate].
  destruct (member account "password") as [pw|]; [|discriminate].
  destruct (member transport "iceServers") as [ice|]; [|discriminate].
  cbn [mbind option_bind default from_option id].
  destruct ice as [| | | | |l|]; try discriminate. cbn [ice_urls].
  destruct (member transport "wsServers") as [ws|]; [|discriminate].
  destruct (member account "uri") as [u|]; [|discriminate].
  intros [= <-]. cbn.
  do 5 (split; [reflexivity|]).
  split; [exists l; rewrite length_map; auto|].
  repeat split.
Qed.

Lemma configure_engine_options_witness :
  let options := options_with_extra in
  let o := UaOptions false false true "warn" 60 false 3600
             "vialer-calling-lib" (JString "alice") (JObject [])
             (JString "secret")
             [JObject [("urls", JString "stun:example.org")]] 0 true
             (JString "wss://example.org") (JString "sip:alice@example.org") in
  configure options = inr o /\
  authorizationUser o = field (field options "account") "user" /\
  password o = field (field options "account") "password" /\
  uri o = field (field options "account") "uri" /\
  wsServers o = field (field options "transport") "wsServers" /\
  media o = field options "media" /\
  (exists l, field (field options "transport") "iceServers" = JArray l /\
             iceServers o = map (fun s => JObject [("urls", s)]) l /\
             length (iceServers o) = length l) /\
  autostart o = false /\ autostop o = false /\ register o = false /\
  maxReconnectionAttempts o = 0 /\ traceSip o = true /\
  noAnswerTimeout o = 60 /\ registerOptions_expires o = 3600 /\
  log_builtinEnabled o = true /\ log_level o = "warn" /\
  userAgentString o = "vialer-calling-lib".
Proof.
  split; [reflexivity|].
  apply (configure_engine_options options_with_extra). reflexivity.
Defined.

(** * What is awaited, and the listeners of the engine instance *)

Lemma settle_fields p o s :
  let s' := settle p o s in
  ua s' = ua s /\ transportConnectedPromise s' = transportConnectedPromise s /\
  unregisteredPromise s' = unregisteredPromise s /\
  registeredPromise s' = registeredPromise s /\
  listeners s' = listeners s /\ registered s' = registered s /\
  trace s' = trace s /\ sessions s' = sessions s /\ armed s' = armed s /\
  timers s' = timers s /\ engine_pending s' = engine_pending s /\
  isReconnecting s' = isReconnecting s.
Proof. unfold settle. case_match; cbn; auto 15. Qed.

Lemma await_fields k s :
  let s' := await k s in
  ua s' = ua s /\ transportConnectedPromise s' = transportConnectedPromise s /\
  unregisteredPromise s' = unregisteredPromise s /\
  registeredPromise s' = registeredPromise s /\
  listeners s' = listeners s /\ registered s' = registered s /\
  trace s' = trace s /\ sessions s' = sessions s /\ armed s' = armed s /\
  timers s' = timers s /\ engine_pending s' = engine_pending s /\
  isReconnecting s' = isReconnecting s /\ settled s' = settled s.
Proof. unfold await, enqueue. repeat case_match; cbn; auto 15. Qed.

Lemma ua_settle p o s : ua (settle p o s) = ua s.
Proof. apply settle_fields. Qed.
Lemma ua_await k s : ua (await k s) = ua s.
Proof. apply await_fields. Qed.
Lemma listeners_settle p o s : listeners (settle p o s) = listeners s.
Proof. apply settle_fields. Qed.
Lemma listeners_await k s : listeners (await k s) = listeners s.
Proof. apply await_fields. Qed.
Lemma registeredPromise_settle p o s :
  registeredPromise (settle p o s) = registeredPromise s.
Proof. apply settle_fields. Qed.
Lemma registeredPromise_await k s :
  registeredPromise (await k s) = registeredPromise s.
Proof. apply await_fields. Qed.
Lemma unregisteredPromise_settle p o s :
  unregisteredPromise (settle p o s) = unregisteredPromise s.
Proof. apply settle_fields. Qed.
Lemma unregisteredPromise_await k s :
  unregisteredPromise (await k s) = unregisteredPromise s.
Proof. apply await_fields. Qed.
Lemma transportConnectedPromise_settle p o s :
  transportConnectedPromise (settle p o s) = transportConnectedPromise s.
Proof. apply settle_fields. Qed.
Lemma transportConnectedPromise_await k s :
  transportConnectedPromise (await k s) = transportConnectedPromise s.
Proof. apply await_fields. Qed.
Lemma registered_settle p o s : registered (settle p o s) = registered s.
Proof. apply settle_fields. Qed.
Lemma registered_await k s : registered (await k s) = registered s.
Proof. apply await_fields. Qed.
Lemma trace_settle p o s : trace (settle p o s) = trace s.
Proof. apply settle_fields. Qed.
Lemma trace_await k s : trace (await k s) = trace s.
Proof. apply await_fields. Qed.

Lemma awaits_below_mono n m k : n <= m -> awaits_below n k -> awaits_below m k.
Proof. unfold awaits_below. destruct (awaited k); [lia|auto]. Qed.

Lemma field_below_mono n m x : n <= m -> field_below n x -> field_below m x.
Proof. unfold field_below. destruct x; [lia|auto]. Qed.

(** ** The primitives *)

Lemma tidy_ext s s' :
  next s' = next s -> waiting s' = waiting s ->
  transportConnectedPromise s' = transportConnectedPromise s ->
  unregisteredPromise s' = unregisteredPromise s ->
  registeredPromise s' = registeredPromise s ->
  disconnectPromise s' = disconnectPromise s ->
  ua s' = ua s -> listeners s' = listeners s ->
  tidy s -> tidy s'.
Proof.
  intros En Ew Et Eu Er Ed Ea El [Hw Ht Hu Hr Hd Hi Hv].
  split; rewrite ?En, ?Ew, ?Et, ?Eu, ?Er, ?Ed, ?Ea, ?El; assumption.
Qed.

Lemma tidy_next s : tidy s -> tidy (set_next (S (next s)) s).
Proof.
  intros [Hw Ht Hu Hr Hd Hi Hv]. split; cbn; try assumption.
  - eapply Forall_impl; [exact Hw|]. intros k. apply awaits_below_mono. lia.
  - eapply field_below_mono; [|exact Ht]. lia.
  - eapply field_below_mono; [|exact Hu]. lia.
  - eapply field_below_mono; [|exact Hr]. lia.
Qed.

Lemma tidy_settle p o s : tidy s -> tidy (settle p o s).
Proof.
  intros [Hw Ht Hu Hr Hd Hi Hv]. unfold settle. case_match; [split; assumption|].
  split; cbn; auto using Forall_filter_bool.
Qed.

Lemma tidy_await k s : tidy s -> awaits_below (next s) k -> tidy (await k s).
Proof.
  intros [Hw Ht Hu Hr Hd Hi Hv] Hk. unfold await, enqueue.
  repeat case_match; split; cbn; auto; apply Forall_app; auto.
Qed.

Lemma tidy_emit a s : tidy s -> tidy (emit a s).
Proof. apply tidy_ext; reflexivity. Qed.

Lemma tidy_add_listener h s :
  tidy s -> ua s <> None -> is_invite_listener h = false ->
  tidy (add_listener h s).
Proof.
  intros [Hw Ht Hu Hr Hd Hi Hv] Ha Hh. split; cbn; try assumption.
  - intros E. congruence.
  - intros _. rewrite List.filter_app, length_app. cbn. rewrite Hh. cbn.
    rewrite (Hv Ha). reflexivity.
Qed.

Lemma tidy_set_registeredPromise v s :
  tidy s -> field_below (next s) v -> tidy (set_registeredPromise v s).
Proof. intros [Hw Ht Hu Hr Hd Hi Hv] H. split; cbn; assumption. Qed.

Lemma tidy_set_transportConnectedPromise v s :
  tidy s -> field_below (next s) v -> tidy (set_transportConnectedPromise v s).
Proof. intros [Hw Ht Hu Hr Hd Hi Hv] H. split; cbn; assumption. Qed.

Lemma tidy_set_unregisteredPromise v s :
  tidy s -> field_below (next s) v -> (ua s = None -> v = None) ->
  tidy (set_unregisteredPromise v s).
Proof.
  intros [Hw Ht Hu Hr Hd Hi Hv] H Hn. split; cbn; try assumption.
  intros E. split; [apply Hi, E|apply Hn, E].
Qed.

Lemma handler_eqb_eq a b : handler_eqb a b = true -> a = b.
Proof.
  destruct a, b; cbn; try discriminate; try reflexivity;
    intros E; apply Nat.eqb_eq in E; congruence.
Qed.

Lemma filter_remove_first h l :
  is_once h = true ->
  List.filter is_invite_listener (remove_first h l)
  = List.filter is_invite_listener l.
Proof.
  intros Hh. induction l as [|x l IH]; [reflexivity|]. cbn.
  destruct (handler_eqb h x) eqn:E.
  - apply handler_eqb_eq in E. subst x.
    destruct h; try discriminate; reflexivity.
  - cbn. rewrite IH. reflexivity.
Qed.

Lemma tidy_remove_first h s :
  tidy s -> is_once h = true ->
  tidy (set_listeners (remove_first h (listeners s)) s).
Proof.
  intros [Hw Ht Hu Hr Hd Hi Hv] Hh. split; cbn; try assumption.
  - intros E. destruct (Hi E) as [-> Eu]. auto.
  - intros Ha. rewrite filter_remove_first by exact Hh. auto.
Qed.

(** ** The methods *)

Ltac through :=
  rewrite ?next_settle, ?next_await, ?ua_settle, ?ua_await,
    ?registeredPromise_settle, ?registeredPromise_await,
    ?unregisteredPromise_settle, ?unregisteredPromise_await,
    ?transportConnectedPromise_settle, ?transportConnectedPromise_await,
    ?listeners_settle, ?listeners_await in *.

(** A side condition, from the fields of a tidy state. *)
Ltac td_side :=
  through; fields; unfold awaits_below, field_below in *;
  repeat match goal with
         | H : tidy ?s |- _ =>
             let Ht := fresh in let Hu := fresh in let Hr := fresh in
             let Hd := fresh in
             pose proof (tidy_disconnect s H) as Hd;
             pose proof (tidy_transport s H) as Ht;
             pose proof (tidy_unregistered s H) as Hu;
             pose proof (tidy_registered s H) as Hr;
             clear H; unfold field_below in Ht, Hu, Hr; through; fields
         end;
  repeat match goal with
         | H : ?x = Some _ |- _ => rewrite H in *
         | H : ?x = None |- _ => rewrite H in *
         end;
  cbn [awaited pnum] in *;
  repeat case_match; cbn [awaited pnum] in *;
  first [ exact I | lia | congruence | reflexivity | discriminate ].

Ltac td_step :=
  lazymatch goal with
  | H : tidy ?s |- tidy ?s => exact H
  | |- tidy (emit _ _) => apply tidy_emit
  | |- tidy (set_next (S (next ?x)) ?x) => apply tidy_next
  | |- tidy (settle _ _ _) => apply tidy_settle
  | |- tidy (await _ _) => apply tidy_await; [|td_side]
  | |- tidy (add_listener _ _) => apply tidy_add_listener; [|td_side|reflexivity]
  | |- tidy (set_registeredPromise _ _) =>
      apply tidy_set_registeredPromise; [|td_side]
  | |- tidy (set_transportConnectedPromise _ _) =>
      apply tidy_set_transportConnectedPromise; [|td_side]
  | |- tidy (set_unregisteredPromise _ _) =>
      apply tidy_set_unregisteredPromise; [|td_side|td_side]
  | |- tidy (match ?x with _ => _ end) => destruct x eqn:?
  | |- tidy (snd (match ?x with _ => _ end)) => destruct x eqn:?
  | |- tidy (snd (if ?x then _ else _)) => destruct x eqn:?
  | |- tidy (snd (_, _)) => cbn [snd]
  | |- tidy (if ?x then _ else _) => destruct x eqn:?
  | |- tidy (set_registered _ ?s) => apply (tidy_ext s); [reflexivity..|]
  | |- tidy (set_isReconnecting _ ?s) => apply (tidy_ext s); [reflexivity..|]
  | |- tidy (set_sessions _ ?s) => apply (tidy_ext s); [reflexivity..|]
  | |- tidy (set_armed _ ?s) => apply (tidy_ext s); [reflexivity..|]
  | |- tidy (set_timers _ ?s) => apply (tidy_ext s); [reflexivity..|]
  | |- tidy (set_engine_pending _ ?s) => apply (tidy_ext s); [reflexivity..|]
  | |- tidy (set_queue _ ?s) => apply (tidy_ext s); [reflexivity..|]
  | |- tidy (set_trace _ ?s) => apply (tidy_ext s); [reflexivity..|]
  end.

Ltac td := cbv beta iota zeta delta [fresh]; cbn [fst snd]; repeat td_step.

Lemma tidy_configureUA s : tidy s -> ua s = None -> tidy (configureUA s).
Proof.
  intros [Hw Ht Hu Hr Hd Hi Hv] Ha. destruct (Hi Ha) as [El Eu].
  unfold configureUA. cbv beta iota zeta delta [fresh].
  split; cbn; rewrite ?El, ?Eu; cbn;
    first [ lia | exact I | intros; congruence | reflexivity
          | eapply field_below_mono; [|eassumption]; lia
          | eapply Forall_impl; [exact Hw|];
            intros k; apply awaits_below_mono; lia ].
Qed.

Lemma ua_configureUA s : ua (configureUA s) <> None.
Proof. unfold configureUA. cbv beta iota zeta delta [fresh]. cbn. discriminate. Qed.

Lemma tidy_connect_tail r s : tidy s -> tidy (connect_tail r s).
Proof. intros H. unfold connect_tail. td. Qed.

Lemma tidy_connect_call s : tidy s -> tidy (connect_call s).2.
Proof.
  intros H. unfold connect_call. cbv beta iota zeta delta [fresh].
  assert (H1 : tidy (match ua (set_next (S (next s)) s) with
    | Some _ => set_next (S (next s)) s
    | None => configureUA (emit (ConsoleLog MConfiguringUa) (set_next (S (next s)) s))
    end)).
  { destruct (ua _) eqn:E; [td|]. apply tidy_configureUA; [td|exact E]. }
  revert H1. generalize (match ua (set_next (S (next s)) s) with
    | Some _ => set_next (S (next s)) s
    | None => configureUA (emit (ConsoleLog MConfiguringUa) (set_next (S (next s)) s))
    end). intros s1 H1.
  destruct (unregisteredPromise s1) eqn:E; cbn [snd].
  - td.
  - apply tidy_connect_tail, H1.
Qed.

Lemma tidy_connect_transport r o s : tidy s -> tidy (connect_transport r o s).
Proof. intros H. unfold connect_transport. td. Qed.

Lemma tidy_disconnect_tail r s : tidy s -> tidy (disconnect_tail r s).
Proof. intros H. unfold disconnect_tail. td. Qed.

Lemma tidy_disconnect_call s : tidy s -> tidy (disconnect_call s).2.
Proof.
  intros H. unfold disconnect_call. td. apply tidy_disconnect_tail. td.
Qed.

Lemma tidy_reset s :
  tidy s ->
  tidy (set_unregisteredPromise None (set_ua None (set_listeners [] s))).
Proof.
  intros [Hw Ht Hu Hr Hd Hi Hv].
  split; cbn; try assumption; try exact I; auto. intros E. congruence.
Qed.

Lemma tidy_disconnect_finish r s : tidy s -> tidy (disconnect_finish r s).
Proof.
  intros H. unfold disconnect_finish. cbv zeta.
  destruct (ua _) eqn:E.
  - apply tidy_settle, tidy_reset. td.
  - td.
Qed.

Lemma tidy_invite_call phone id s : tidy s -> tidy (invite_call phone id s).2.
Proof. intros H. unfold invite_call. td. Qed.

Lemma tidy_invite_finish r phone id s : tidy s -> tidy (invite_finish r phone id s).
Proof. intros H. unfold invite_finish. td. Qed.

Lemma tidy_retry_attempt q k n s : tidy s -> tidy (retry_attempt q k n s).
Proof.
  intros H. unfold retry_attempt.
  rewrite (surjective_pairing (connect_call s)).
  apply tidy_await; [apply tidy_connect_call, H|].
  unfold awaits_below. cbn [awaited pnum].
  rewrite connect_call_result. apply connect_call_next.
Qed.

Lemma tidy_retry_settled q k n o s : tidy s -> tidy (retry_settled q k n o s).
Proof. intros H. unfold retry_settled. td. Qed.

Lemma tidy_retry_failed q k n e s : tidy s -> tidy (retry_failed q k n e s).
Proof. intros H. unfold retry_failed. td. Qed.

Lemma tidy_reconnect_call s : tidy s -> tidy (reconnect_call s).2.
Proof.
  intros H. unfold reconnect_call. cbv beta iota zeta delta [fresh]. cbn [snd].
  match goal with
  | |- tidy (await _ (retry_attempt ?q ?k ?n ?e)) =>
      assert (Hn : next e <= next (retry_attempt q k n e))
        by (apply (reach_by_next retry_perm), retry_attempt_by; fields; lia);
      apply tidy_await; [apply tidy_retry_attempt; td|]
  end.
  unfold awaits_below. cbn [awaited pnum]. fields. lia.
Qed.

Lemma reconnect_call_next s : next s < next (reconnect_call s).2.
Proof.
  unfold reconnect_call. cbv beta iota zeta delta [fresh]. cbn [snd].
  rewrite next_await.
  match goal with
  | |- _ < next (retry_attempt ?q ?k ?n ?e) =>
      assert (Hn : next e <= next (retry_attempt q k n e))
        by (apply (reach_by_next retry_perm), retry_attempt_by; fields; lia)
  end.
  fields. lia.
Qed.

Lemma tidy_reconnect_finish r o s : tidy s -> tidy (reconnect_finish r o s).
Proof. intros H. unfold reconnect_finish. td. Qed.

Lemma disconnect_call_next s : next s < next (disconnect_call s).2.
Proof.
  unfold disconnect_call. cbv beta iota zeta delta [fresh].
  repeat case_match; cbn [snd]; through; fields; try lia.
  match goal with
  | |- _ < next (disconnect_tail ?r ?e) =>
      assert (Hn : next e <= next (disconnect_tail r e))
        by (apply (reach_by_next teardown_perm), disconnect_tail_by; fields; lia)
  end.
  fields. lia.
Qed.

Lemma tidy_handler_start t s : tidy s -> tidy (handler_start t s).
Proof.
  intros H. unfold handler_start. cbv zeta.
  rewrite (surjective_pairing (disconnect_call _)).
  apply tidy_await; [apply tidy_disconnect_call; td|].
  unfold awaits_below. cbn [awaited pnum].
  rewrite disconnect_call_result. apply disconnect_call_next.
Qed.

Lemma tidy_handler_disconnected t o s :
  tidy s -> tidy (handler_disconnected t o s).
Proof.
  intros H. unfold handler_disconnected. destruct o as [v|e]; [|td].
  destruct (isReconnecting s); [td|].
  rewrite (surjective_pairing (reconnect_call s)).
  apply tidy_await; [apply tidy_reconnect_call, H|].
  unfold awaits_below. cbn [awaited pnum].
  rewrite reconnect_call_result. apply reconnect_call_next.
Qed.

Lemma tidy_handler_reconnected t o s :
  tidy s -> tidy (handler_reconnected t o s).
Proof. intros H. unfold handler_reconnected. td. Qed.

Lemma tidy_run_cont k o s : tidy s -> tidy (run_cont k o s).
Proof.
  intros H. destruct k; cbn [run_cont]; unfold rethrow; try destruct o;
    first [ apply tidy_settle, H
          | apply tidy_connect_tail, H
          | apply tidy_connect_transport, H
          | apply tidy_disconnect_tail, H
          | apply tidy_disconnect_finish, H
          | apply tidy_invite_finish, H
          | apply tidy_handler_disconnected, H
          | apply tidy_handler_reconnected, H
          | apply tidy_reconnect_finish, H
          | apply tidy_retry_settled, H
          | apply tidy_retry_failed, H ].
Qed.

Lemma tidy_drain fuel s : tidy s -> tidy (drain fuel s).
Proof.
  revert s. induction fuel as [|fuel IH]; intros s H; cbn; [assumption|].
  destruct (queue s) as [|[k o] rest] eqn:E; [assumption|].
  apply IH, tidy_run_cont. td.
Qed.

Lemma tidy_fire h id s : tidy s -> tidy (fire h id s).1.
Proof.
  intros H. destruct h; cbn [fire fst].
  - td.
  - td.
  - td.
  - cbv zeta. destruct (ua _) eqn:E; cbn [fst]; td.
  - td.
  - apply tidy_handler_start, H.
  - cbv beta iota zeta delta [fresh]. cbn [fst]. td.
Qed.

Lemma tidy_emit_event e snapshot id : forall s,
  tidy s -> tidy (emit_event e snapshot id s).
Proof.
  induction snapshot as [|h snapshot IH]; intros s H; cbn [emit_event];
    [assumption|].
  destruct (event_eqb (event_of h) e); [|apply IH, H]. cbv zeta.
  assert (H1 : tidy (if is_once h
                     then set_listeners (remove_first h (listeners s)) s
                     else s)).
  { destruct (is_once h) eqn:Eo; [apply tidy_remove_first; assumption|exact H]. }
  revert H1. generalize (if is_once h
                         then set_listeners (remove_first h (listeners s)) s
                         else s). intros s1 H1.
  pose proof (tidy_fire h id s1 H1) as H2.
  destruct (fire h id s1) as [s2 []]; cbn [fst] in H2; [apply IH, H2|td].
Qed.

Lemma tidy_terminated o s : tidy s -> tidy (terminated o s).
Proof.
  intros H. unfold terminated.
  generalize (List.filter (fun x => Nat.eqb (sobj x) o) (armed s)).
  assert (H0 : tidy (set_armed
            (List.filter (fun x => negb (Nat.eqb (sobj x) o)) (armed s)) s))
    by td.
  revert H0. generalize (set_armed
            (List.filter (fun x => negb (Nat.eqb (sobj x) o)) (armed s)) s).
  intros s0 H0 hit. revert s0 H0.
  induction hit as [|x hit IH]; intros s0 H0; cbn; [assumption|].
  apply IH. td.
Qed.

Lemma tidy_dispatch i s : tidy s -> tidy (dispatch i s).
Proof.
  intros H. destruct i; cbn [dispatch].
  - apply tidy_connect_call, H.
  - apply tidy_disconnect_call, H.
  - apply tidy_invite_call, H.
  - apply tidy_emit_event, H.
  - assert (H0 : tidy (set_engine_pending [] s)) by td.
    revert H0. generalize (set_engine_pending [] s).
    generalize (engine_pending s). intros l.
    induction l as [|d l IH]; intros s0 H0; cbn; [assumption|].
    apply IH, tidy_settle, H0.
  - apply tidy_terminated, H.
  - destruct (timers s) as [|[[q k] n] rest]; [assumption|].
    apply tidy_retry_attempt. td.
Qed.

Lemma tidy_step fuel s i : tidy s -> tidy (step fuel s i).
Proof. intros H. unfold step. apply tidy_drain, tidy_dispatch. td. Qed.

Lemma tidy_fresh_client n : tidy (fresh_client n).
Proof. split; cbn; auto; try exact I; try constructor. congruence. Qed.

Lemma reachable_tidy s : reachable s -> tidy s.
Proof.
  induction 1; [apply tidy_fresh_client|apply tidy_step; assumption].
Qed.

(** * With and without an engine instance *)

Lemma waits_on_fresh n p k :
  awaits_below n k -> n <= pnum p -> waits_on p k = false.
Proof.
  unfold awaits_below, waits_on. destruct (awaited k) as [p'|]; [|reflexivity].
  intros Hk Hp. destruct (pid_eqb p p') eqn:E; [|reflexivity].
  apply pid_eqb_eq in E. subst. lia.
Qed.

Lemma parked_fresh (W : list cont) n p :
  Forall (awaits_below n) W -> n <= pnum p ->
  List.filter (waits_on p) W = [] /\
  List.filter (fun k => negb (waits_on p k)) W = W.
Proof.
  intros HW Hp. rewrite Forall_forall in HW. split.
  - apply filter_nothing. intros k Hk. eapply waits_on_fresh; eauto.
  - apply filter_none_id. intros k Hk.
    rewrite (waits_on_fresh n p k); auto.
Qed.

(** ** Inbound invitations *)




(** X5: a client without engine instance is deaf.  In every reachable
    state without engine instance (before the first connect(), after a
    disconnect() has completed) no listener is attached: an engine
    event, of whatever kind, changes nothing. *)
Theorem engine_events_ignored_without_engine
    (fuel : nat) (s : state) (e : event) (id : string) :
  reachable s -> quiescent s -> ua s = None ->
  listeners s = [] /\
  step fuel s (Engine e id) = set_trace (trace s ++ [Got (Engine e id)]) s.
Proof.
  intros Hs Hq Ha.
  destruct (tidy_idle s (reachable_tidy s Hs) Ha) as [El _].
  split; [exact El|].
  unfold step. cbn [dispatch]. fields. rewrite El. cbn [emit_event].
  apply drain_quiescent. exact Hq.
Qed.

Lemma engine_events_ignored_without_engine_witness :
  let s := run 20 init (bring_up ++ full_disconnect) in
  reachable s /\ quiescent s /\ ua s = None /\
  listeners s = [] /\
  step 20 s (ev EvRegistered)
  = set_trace (trace s ++ [Got (ev EvRegistered)]) s.
Proof.
  assert (Hr : reachable (run 20 init (bring_up ++ full_disconnect)))
    by (apply reachable_run; constructor).
  split; [exact Hr|]. split; [reflexivity|]. split; [reflexivity|].
  exact (engine_events_ignored_without_engine 20 _ EvRegistered EmptyString
           Hr eq_refl eq_refl).
Defined.

(** ** Running the machine from a state that is not given in full *)

Ltac wake :=
  cbn [waiting queue settled]; rewrite ?List.filter_app;
  repeat match goal with
         | HW : forall p, _ <= pnum p ->
                  List.filter (waits_on p) ?W = [] /\ _
           |- context [List.filter (waits_on ?q) ?W] =>
             rewrite (proj1 (HW q ltac:(cbn [pnum]; lia)))
         | HW : forall p, _ <= pnum p ->
                  _ /\ List.filter (fun k => negb (waits_on p k)) ?W = ?W
           |- context [List.filter (fun k => negb (waits_on ?q k)) ?W] =>
             rewrite (proj2 (HW q ltac:(cbn [pnum]; lia)))
         end;
  cbn [app].

Ltac proceed :=
  match goal with
  | |- context [await ?k ?s] =>
      explicit s;
      first [ rewrite (await_at_once k s eq_refl)
            | rewrite (await_pending k _ s eq_refl) by pending
            | erewrite (await_settled k _ _ s eq_refl) by pending ]
  | |- context [settle ?p ?o ?s] =>
      explicit s;
      first [ rewrite (settle_pending p o s) by pending; wake
            | erewrite (settle_settled p o _ s) by pending ]
  | |- context [step ?f ?s ?i] =>
      explicit s;
      change (step f s i)
        with (drain f (dispatch i (set_trace (trace s ++ [Got i]) s)))
  | |- context [drain ?f ?s] =>
      explicit s;
      first [ rewrite (drain_quiescent f s) by reflexivity
            | erewrite (drain_S _ s) by (cbn [queue]; reflexivity) ]
  end; code; eqb_simpl; code.

(** What a reachable state tells about the promises created from now
    on: none is settled, nothing waits for one. *)
Lemma reachable_fresh s :
  reachable s ->
  (forall p, next s <= pnum p -> assoc p (settled s) = None) /\
  (forall p, next s <= pnum p ->
     List.filter (waits_on p) (waiting s) = [] /\
     List.filter (fun k => negb (waits_on p k)) (waiting s) = waiting s) /\
  disconnectPromise s = None /\
  (ua s = None -> listeners s = [] /\ unregisteredPromise s = None).
Proof.
  intros Hs. pose proof (reachable_wf s Hs) as Hwf.
  pose proof (reachable_tidy s Hs) as Ht.
  repeat split.
  - intros p Hp. eapply assoc_fresh; [apply Hwf|exact Hp].
  - eapply parked_fresh; [apply Ht|assumption].
  - eapply parked_fresh; [apply Ht|assumption].
  - apply Ht.
  - apply (tidy_idle s Ht). assumption.
  - apply (tidy_idle s Ht). assumption.
Qed.

(** X6: disconnect() without engine instance.  On a client that has
    no engine instance (never connected, or disconnected already) the
    call is rejected with 'not connected' and does nothing else: no
    command, no message, and the registration future, which line 120
    would delete, is left as it is. *)
Theorem disconnect_without_engine (fuel : nat) (s : state) :
  reachable s -> quiescent s -> ua s = None ->
  step fuel s CallDisconnect
  = set_settled ((PDisconnect (next s), Rejected ENotConnected) :: settled s)
      (set_next (S (next s)) (set_trace (trace s ++ [Got CallDisconnect]) s)).
Proof.
  intros Hs Hq Ha.
  destruct (reachable_fresh s Hs) as (Hfresh & HW & Hd & Hidle).
  destruct s as [u tcp up rp dp reg isr n sess L arm D W Q tm ep N T].
  unfold quiescent in Hq. cbn in Hfresh, HW, Hd, Hq, Ha. subst u dp Q.
  fields. repeat proceed. reflexivity.
Qed.

Lemma disconnect_without_engine_witness :
  reachable init /\ quiescent init /\ ua init = None /\
  step 20 init CallDisconnect
  = set_settled ((PDisconnect (next init), Rejected ENotConnected)
                 :: settled init)
      (set_next (S (next init))
         (set_trace (trace init ++ [Got CallDisconnect]) init)).
Proof.
  assert (Hr : reachable init) by constructor.
  split; [exact Hr|]. split; [reflexivity|]. split; [reflexivity|].
  exact (disconnect_without_engine 20 init Hr eq_refl eq_refl).
Defined.

(** * connect() and disconnect() from a state that is not given in full *)

Ltac open_state s Hs :=
  let Hfresh := fresh "Hfresh" in let HW := fresh "HW" in
  let Hd := fresh "Hd" in let Hidle := fresh "Hidle" in
  destruct (reachable_fresh s Hs) as (Hfresh & HW & Hd & Hidle).

(** X7: connect() on a client without engine instance and without
    registration future (a new client, or one that was disconnected).
    The call creates an engine instance and starts it, and waits: its
    promise is pending and no registration is requested before the
    transport has connected.  When the transport connects the client
    asks the engine to register; when the engine confirms, the client
    is registered and the call's promise is fulfilled, as is the
    registration future.  What was parked before the call is parked
    still. *)
Theorem connect_registers (fuel : nat) (s : state) :
  reachable s -> quiescent s -> ua s = None -> registeredPromise s = None ->
  let s1 := run (S fuel) s [CallConnect; ev EvTransportCreated] in
  let s2 := run (S fuel) s1 [ev EvConnected] in
  let s3 := run (S fuel) s2 [ev EvRegistered] in
  (commands (trace s1) = commands (trace s) ++ [UaStart] /\
   pstate s1 (PConnect (next s)) = None /\ registered s1 = registered s) /\
  (commands (trace s2) = commands (trace s) ++ [UaStart; UaRegister] /\
   pstate s2 (PConnect (next s)) = None /\ registered s2 = registered s) /\
  (commands (trace s3) = commands (trace s) ++ [UaStart; UaRegister] /\
   pstate s3 (PConnect (next s)) = Some (Fulfilled true) /\
   registered s3 = true /\
   (exists p, registeredPromise s3 = Some p /\
              pstate s3 (PRegistered p) = Some (Fulfilled true)) /\
   ua s3 <> None /\ waiting s3 = waiting s /\ quiescent s3).
Proof.
  intros Hs Hq Ha Hrp. open_state s Hs.
  destruct (Hidle Ha) as [El Eu].
  destruct s as [u tcp up rp dp reg isr n sess L arm D W Q tm ep N T].
  unfold quiescent in Hq. cbn in Hfresh, HW, Hd, Hq, Ha, Hrp, El, Eu.
  subst u dp Q rp L up. unfold ev. cbv zeta.
  rewrite !run_cons. cbn [run foldl].
  fields. repeat proceed.
  unfold pstate, quiescent. fields.
  rewrite !commands_app, !app_nil_r. cbn [commands actions List.filter is_command app].
  rewrite <- !app_assoc. cbn [app assoc pid_eqb].
  eqb_simpl. cbn [assoc pid_eqb]. rewrite !Hfresh by (cbn [pnum]; lia).
  repeat split; try reflexivity; try discriminate.
  eexists. split; [reflexivity|]. cbn [assoc pid_eqb]. eqb_simpl. reflexivity.
Qed.

Lemma connect_registers_witness :
  reachable init /\ quiescent init /\ ua init = None /\
  registeredPromise init = None /\
  let s := init in
  let s1 := run (S 19) s [CallConnect; ev EvTransportCreated] in
  let s2 := run (S 19) s1 [ev EvConnected] in
  let s3 := run (S 19) s2 [ev EvRegistered] in
  (commands (trace s1) = commands (trace s) ++ [UaStart] /\
   pstate s1 (PConnect (next s)) = None /\ registered s1 = registered s) /\
  (commands (trace s2) = commands (trace s) ++ [UaStart; UaRegister] /\
   pstate s2 (PConnect (next s)) = None /\ registered s2 = registered s) /\
  (commands (trace s3) = commands (trace s) ++ [UaStart; UaRegister] /\
   pstate s3 (PConnect (next s)) = Some (Fulfilled true) /\
   registered s3 = true /\
   (exists p, registeredPromise s3 = Some p /\
              pstate s3 (PRegistered p) = Some (Fulfilled true)) /\
   ua s3 <> None /\ waiting s3 = waiting s /\ quiescent s3).
Proof.
  assert (Hr : reachable init) by constructor.
  split; [exact Hr|]. do 3 (split; [reflexivity|]).
  exact (connect_registers 19 init Hr eq_refl eq_refl eq_refl).
Defined.

(** X8: a failed registration sticks.  When the engine reports
    'registrationFailed' the connect() call is rejected with the
    engine's error and the client is not registered; the rejected
    registration future stays in its field, so that a further connect()
    is rejected with the same error without a command to the engine,
    and invite() is rejected with that error too and creates no
    session. *)
Theorem failed_registration_sticks
    (fuel : nat) (s : state) (phone id : string) :
  reachable s -> quiescent s -> ua s = None -> registeredPromise s = None ->
  let s3 := run (S fuel) s [CallConnect; ev EvTransportCreated;
                            ev EvConnected; ev EvRegistrationFailed] in
  let s4 := step (S fuel) s3 CallConnect in
  let s5 := step (S fuel) s3 (CallInvite phone id) in
  pstate s3 (PConnect (next s)) = Some (Rejected EEngine) /\
  registered s3 = registered s /\
  (exists p, registeredPromise s3 = Some p /\
             pstate s3 (PRegistered p) = Some (Rejected EEngine)) /\
  pstate s4 (PConnect (next s3)) = Some (Rejected EEngine) /\
  commands (trace s4) = commands (trace s3) /\
  registeredPromise s4 = registeredPromise s3 /\
  pstate s5 (PInvite (next s3)) = Some (Rejected EEngine) /\
  commands (trace s5) = commands (trace s3) /\
  sessions s5 = sessions s.
Proof.
  intros Hs Hq Ha Hrp. open_state s Hs.
  destruct (Hidle Ha) as [El Eu].
  destruct s as [u tcp up rp dp reg isr n sess L arm D W Q tm ep N T].
  unfold quiescent in Hq. cbn in Hfresh, HW, Hd, Hq, Ha, Hrp, El, Eu.
  subst u dp Q rp L up. unfold ev. cbv zeta.
  rewrite !run_cons. cbn [run foldl].
  fields. repeat proceed.
  cbv beta iota zeta delta [invite_call fresh]. code.
  repeat proceed.
  unfold pstate, quiescent. fields.
  rewrite !commands_app, !app_nil_r. cbn [commands actions List.filter is_command app].
  cbn [app assoc pid_eqb].
  eqb_simpl. cbn [assoc pid_eqb].
  repeat split; try reflexivity; try discriminate.
  eexists. split; [reflexivity|]. cbn [assoc pid_eqb]. eqb_simpl. reflexivity.
Qed.

Lemma failed_registration_sticks_witness :
  reachable init /\ quiescent init /\ ua init = None /\
  registeredPromise init = None /\
  let s := init in
  let s3 := run (S 19) s [CallConnect; ev EvTransportCreated;
                          ev EvConnected; ev EvRegistrationFailed] in
  let s4 := step (S 19) s3 CallConnect in
  let s5 := step (S 19) s3 (CallInvite "100" "call-1") in
  pstate s3 (PConnect (next s)) = Some (Rejected EEngine) /\
  registered s3 = registered s /\
  (exists p, registeredPromise s3 = Some p /\
             pstate s3 (PRegistered p) = Some (Rejected EEngine)) /\
  pstate s4 (PConnect (next s3)) = Some (Rejected EEngine) /\
  commands (trace s4) = commands (trace s3) /\
  registeredPromise s4 = registeredPromise s3 /\
  pstate s5 (PInvite (next s3)) = Some (Rejected EEngine) /\
  commands (trace s5) = commands (trace s3) /\
  sessions s5 = sessions s.
Proof.
  assert (Hr : reachable init) by constructor.
  split; [exact Hr|]. do 3 (split; [reflexivity|]).
  exact (failed_registration_sticks 19 init "100" "call-1" Hr
           eq_refl eq_refl eq_refl).
Defined.

(** X9: disconnect() of a client that is not registered.  With an
    engine instance, no registration confirmed and no teardown under
    way, the call deletes the registration future and asks the engine
    to disconnect, without an unregister command, and waits; when the
    engine has disconnected, the client removes every listener and
    drops the engine instance and the unregistration future, and the
    call's promise is fulfilled.  What was parked before the call is
    parked still. *)
Theorem disconnect_tears_down (fuel : nat) (s : state) :
  reachable s -> quiescent s -> ua s <> None -> registered s = false ->
  engine_pending s = [] ->
  let s1 := step (S fuel) s CallDisconnect in
  let s2 := step (S fuel) s1 UaDisconnected in
  (commands (trace s1) = commands (trace s) ++ [UaDisconnect (next s)] /\
   pstate s1 (PDisconnect (next s)) = None /\
   registeredPromise s1 = None /\ ua s1 = ua s /\
   listeners s1 = listeners s) /\
  (commands (trace s2) = commands (trace s1) /\
   pstate s2 (PDisconnect (next s)) = Some (Fulfilled true) /\
   ua s2 = None /\ listeners s2 = [] /\
   unregisteredPromise s2 = None /\ registeredPromise s2 = None /\
   waiting s2 = waiting s /\ quiescent s2).
Proof.
  intros Hs Hq Ha Hreg Hep. open_state s Hs.
  destruct s as [u tcp up rp dp reg isr n sess L arm D W Q tm ep N T].
  unfold quiescent in Hq. cbn in Hfresh, HW, Hd, Hq, Ha, Hreg, Hep.
  subst dp Q reg ep. destruct u as [u|]; [|congruence]. cbv zeta.
  fields. repeat proceed.
  unfold pstate, quiescent. fields.
  rewrite !commands_app, !app_nil_r. cbn [commands actions List.filter is_command app].
  rewrite <- ?app_assoc. cbn [app assoc pid_eqb].
  eqb_simpl. cbn [assoc pid_eqb]. rewrite ?Hfresh by (cbn [pnum]; lia).
  repeat split; reflexivity.
Qed.

Lemma disconnect_tears_down_witness :
  let s := registration_in_flight in
  reachable s /\ quiescent s /\ ua s <> None /\ registered s = false /\
  engine_pending s = [] /\
  let s1 := step (S 19) s CallDisconnect in
  let s2 := step (S 19) s1 UaDisconnected in
  (commands (trace s1) = commands (trace s) ++ [UaDisconnect (next s)] /\
   pstate s1 (PDisconnect (next s)) = None /\
   registeredPromise s1 = None /\ ua s1 = ua s /\
   listeners s1 = listeners s) /\
  (commands (trace s2) = commands (trace s1) /\
   pstate s2 (PDisconnect (next s)) = Some (Fulfilled true) /\
   ua s2 = None /\ listeners s2 = [] /\
   unregisteredPromise s2 = None /\ registeredPromise s2 = None /\
   waiting s2 = waiting s /\ quiescent s2).
Proof.
  assert (Hr : reachable registration_in_flight)
    by (apply reachable_run; constructor).
  assert (Ha : ua registration_in_flight <> None) by (vm_compute; discriminate).
  split; [exact Hr|]. split; [reflexivity|]. split; [exact Ha|].
  do 2 (split; [reflexivity|]).
  exact (disconnect_tears_down 19 registration_in_flight Hr eq_refl Ha
           eq_refl eq_refl).
Defined.

(** * Sessions in the registry *)















(** * Waiting for the unregistration to be acknowledged *)

Lemma terminated_registry o s :
  exists sess arm, terminated o s = set_sessions sess (set_armed arm s).
Proof.
  unfold terminated.
  generalize (List.filter (fun x => Nat.eqb (sobj x) o) (armed s)).
  generalize (List.filter (fun x => negb (Nat.eqb (sobj x) o)) (armed s)).
  intros arm hit. exists
    (sessions (foldl (fun s x => set_sessions (delete (sid x) (sessions s)) s)
                 (set_armed arm s) hit)), arm.
  generalize (set_armed arm s). clear s. intros s.
  revert s. induction hit as [|x hit IH]; intros s; cbn [foldl].
  - destruct s; reflexivity.
  - rewrite IH. destruct s; reflexivity.
Qed.

Lemma loss_is_unacknowledged n f :
  exists T,
    run (8 + f) (fresh_client n) loss_while_registered
    = awaiting_unregistered n 6
        [HInvite; HRegistrationFailed 3; HUnregistered 5] ∅ [] T /\
    commands T = [UaStart; UaRegister; UaUnregister 4].
Proof.
  eexists. split.
  - unfold awaiting_unregistered. fuel8 f. lazy. reflexivity.
  - reflexivity.
Qed.

(** Nothing short of 'unregistered' moves the client on. *)
Lemma unacknowledged_step n f N L sess arm T i :
  unacknowledged i = true ->
  L = [HInvite; HRegistrationFailed 3; HUnregistered 5] \/
  L = [HInvite; HUnregistered 5] ->
  exists N' L' sess' arm' T',
    step (S f) (awaiting_unregistered n N L sess arm T) i
    = awaiting_unregistered n N' L' sess' arm' T' /\
    (L' = [HInvite; HRegistrationFailed 3; HUnregistered 5] \/
     L' = [HInvite; HUnregistered 5]) /\
    commands T' = commands T.
Proof.
  intros Hi HL. unfold awaiting_unregistered.
  assert (Hc : forall i', from_environment i' = true ->
                          commands (T ++ [Got i']) = commands T).
  { intros i' _. rewrite commands_app. cbn. apply app_nil_r. }
  destruct i as [| | |e id| |o|]; try discriminate.
  - destruct e; try discriminate; destruct HL as [-> | ->];
      repeat proceed;
      (eexists _, _, _, _, _; split; [reflexivity|]; split;
       [first [left; reflexivity | right; reflexivity]|]);
      rewrite ?commands_app; cbn; rewrite ?app_nil_r; reflexivity.
  - repeat proceed. eexists _, _, _, _, _. split; [reflexivity|].
    split; [exact HL|]. apply Hc. reflexivity.
  - unfold step. cbn [dispatch]. fields.
    match goal with
    | |- context [terminated o ?s] =>
        destruct (terminated_registry o s) as (sess' & arm' & ->)
    end.
    code. repeat proceed. eexists _, _, _, _, _. split; [reflexivity|].
    split; [exact HL|]. apply Hc. reflexivity.
  - repeat proceed. eexists _, _, _, _, _. split; [reflexivity|].
    split; [exact HL|]. apply Hc. reflexivity.
Qed.

Lemma unacknowledged_run n f l : forall N L sess arm T,
  forallb unacknowledged l = true ->
  L = [HInvite; HRegistrationFailed 3; HUnregistered 5] \/
  L = [HInvite; HUnregistered 5] ->
  exists N' L' sess' arm' T',
    run (S f) (awaiting_unregistered n N L sess arm T) l
    = awaiting_unregistered n N' L' sess' arm' T' /\
    commands T' = commands T.
Proof.
  induction l as [|i l IH]; intros N L sess arm T Hl HL.
  - eexists _, _, _, _, _. split; reflexivity.
  - cbn [forallb] in Hl. apply andb_prop in Hl as [Hi Hl].
    destruct (unacknowledged_step n f N L sess arm T i Hi HL)
      as (N1 & L1 & sess1 & arm1 & T1 & E1 & HL1 & Hc1).
    rewrite run_cons, E1.
    destruct (IH N1 L1 sess1 arm1 T1 Hl HL1)
      as (N2 & L2 & sess2 & arm2 & T2 & E2 & Hc2).
    eexists _, _, _, _, _. split; [exact E2|]. congruence.
Qed.

(** X11: the reconnect waits for the engine's 'unregistered' event.
    When a registered client loses its transport, the disconnect() of
    the 'disconnected' handler asks the engine to unregister and waits
    (line 136).  As long as the engine does not emit 'unregistered',
    whatever else it emits and whatever timers fire, the client issues
    no further command: the engine is not told to disconnect, no new
    engine instance is started, reconnect() is not entered; the
    handler's disconnect() (call 4, waiting for its unregistration
    future 5) stays pending. *)
Theorem reconnect_waits_for_unregistered n fuel l :
  8 <= fuel -> forallb unacknowledged l = true ->
  let s := run fuel (run fuel (fresh_client n) loss_while_registered) l in
  commands (trace s) = [UaStart; UaRegister; UaUnregister 4] /\
  waiting s = [KDisconnectUnregistered 4 5; KHandlerDisconnect 2 4] /\
  pstate s (PUnregistered 5) = None /\ pstate s (PDisconnect 4) = None /\
  isReconnecting s = false /\ timers s = [] /\ quiescent s /\
  ua s = Some 1 /\ registered s = true.
Proof.
  intros Hfuel Hl. replace fuel with (8 + (fuel - 8)) by lia.
  generalize (fuel - 8). clear fuel Hfuel. intros f. cbv zeta.
  destruct (loss_is_unacknowledged n f) as (T & -> & Hc).
  destruct (unacknowledged_run n (7 + f) l 6 _ ∅ [] T Hl (or_introl eq_refl))
    as (N' & L' & sess' & arm' & T' & E & Hc').
  change (8 + f) with (S (7 + f)). rewrite E.
  unfold awaiting_unregistered, pstate, quiescent. fields.
  rewrite Hc', Hc. repeat split.
Qed.

Lemma reconnect_waits_for_unregistered_witness :
  8 <= 20 /\
  forallb unacknowledged [Timer; ev EvRegistrationFailed; UaDisconnected;
                          Engine EvInvite "call-1"] = true /\
  let s := run 20 (run 20 (fresh_client 10) loss_while_registered)
             [Timer; ev EvRegistrationFailed; UaDisconnected;
              Engine EvInvite "call-1"] in
  commands (trace s) = [UaStart; UaRegister; UaUnregister 4] /\
  waiting s = [KDisconnectUnregistered 4 5; KHandlerDisconnect 2 4] /\
  pstate s (PUnregistered 5) = None /\ pstate s (PDisconnect 4) = None /\
  isReconnecting s = false /\ timers s = [] /\ quiescent s /\
  ua s = Some 1 /\ registered s = true.
Proof.
  split; [lia|]. split; [reflexivity|].
  apply (reconnect_waits_for_unregistered 10 20
           [Timer; ev EvRegistrationFailed; UaDisconnected;
            Engine EvInvite "call-1"]); [lia|reflexivity].
Defined.
